(** * Google Drive connector: traversal and batching core

    A shallow embedding of [backend/onyx/connectors/google_drive/connector.py]
    and the properties of its scope resolution, per-principal retrieval,
    visited-container ledger and batch assembly.

    Conventions of the embedding:
    - a Python [str] is its UTF-8 encoding, a [string] of bytes;
    - Python [set[str]] is [gset string]; the order in which a [for] loop
      walks a set, and the order in which [as_completed] hands back futures,
      are not fixed by Python and are supplied by a [Scheduler];
    - a generator is run to exhaustion and denotes the list of values it
      yields, the state it leaves behind and whether it finished or raised;
    - [self._retrieved_ids] is the mutable part of the connector: it is the
      [led] component of the state threaded through the retrieval code;
    - the functions imported from [file_retrieval], [doc_conversion],
      [google_utils] and [retry_wrapper] are collaborators that are not part
      of the file; what they return is read from a [World], what they do to
      the ledger is modelled from the specification and marked as such;
    - logging has no effect on any result and is left out. *)

From Stdlib Require Import Ascii String ZArith.
From stdpp Require Import base gmap sets list strings sorting.

#[local] Set Warnings "-clear-no-such-hyp,-level-tolerance".

(* ================================================================= *)
(** ** Python strings *)

(** A Python [str] is represented by its UTF-8 encoding, which is what a
    string literal of this file denotes: an ASCII character is one [ascii],
    any other code point is two to four of them. Splitting at an ASCII
    separator and searching for a substring act on the encoding as they do
    on the code points; [str.strip] has to recognise the white space that
    is encoded in more than one byte. *)

(** [str.isspace] for a character of one byte: TAB..CR, FS..US and the
    blank. *)
Definition py_isspace (c : ascii) : bool :=
  let n := nat_of_ascii c in
  ((9 <=? n) && (n <=? 13)) || ((28 <=? n) && (n <=? 32)).

(** [str.isspace] for a character of two bytes: U+0085 (C2 85) and U+00A0
    (C2 A0). *)
Definition py_isspace2 (b1 b2 : ascii) : bool :=
  (nat_of_ascii b1 =? 194)
  && ((nat_of_ascii b2 =? 133) || (nat_of_ascii b2 =? 160)).

(** [str.isspace] for a character of three bytes: U+1680 (E1 9A 80),
    U+2000..U+200A (E2 80 80..8A), U+2028, U+2029 and U+202F (E2 80 A8,
    A9, AF), U+205F (E2 81 9F) and U+3000 (E3 80 80). No character of four
    bytes is white space. *)
Definition py_isspace3 (b1 b2 b3 : ascii) : bool :=
  let n1 := nat_of_ascii b1 in
  let n2 := nat_of_ascii b2 in
  let n3 := nat_of_ascii b3 in
  ((n1 =? 225) && (n2 =? 154) && (n3 =? 128))
  || ((n1 =? 226) && (n2 =? 128)
      && (((128 <=? n3) && (n3 <=? 138))
          || (n3 =? 168) || (n3 =? 169) || (n3 =? 175)))
  || ((n1 =? 226) && (n2 =? 129) && (n3 =? 159))
  || ((n1 =? 227) && (n2 =? 128) && (n3 =? 128)).

Section Strip.
Context (space2 : ascii → ascii → bool).
Context (space3 : ascii → ascii → ascii → bool).

(** What follows the first character of [l], when that character is white
    space. *)
Definition skip_space (l : list ascii) : option (list ascii) :=
  match l with
  | b1 :: l1 =>
      if py_isspace b1 then Some l1
      else match l1 with
           | b2 :: l2 =>
               if space2 b1 b2 then Some l2
               else match l2 with
                    | b3 :: l3 => if space3 b1 b2 b3 then Some l3 else None
                    | [] => None
                    end
           | [] => None
           end
  | [] => None
  end.

(** [l] without the white space it starts with. *)
Fixpoint strip_space (l : list ascii) : list ascii :=
  match l with
  | b1 :: l1 =>
      if py_isspace b1 then strip_space l1
      else match l1 with
           | b2 :: l2 =>
               if space2 b1 b2 then strip_space l2
               else match l2 with
                    | b3 :: l3 =>
                        if space3 b1 b2 b3 then strip_space l3 else l
                    | [] => l
                    end
           | [] => l
           end
  | [] => []
  end.

End Strip.

(** What follows the white space character [l] starts with, and what
    precedes (in reverse) the one it ends with, if any. *)
Definition leading_space : list ascii → option (list ascii) :=
  skip_space py_isspace2 py_isspace3.

Definition trailing_space (l : list ascii) : option (list ascii) :=
  skip_space (λ b2 b1, py_isspace2 b1 b2)
    (λ b3 b2 b1, py_isspace3 b1 b2 b3) (rev l).

(** [s.lstrip()] on the bytes of [s]. *)
Definition lstrip_chars : list ascii → list ascii :=
  strip_space py_isspace2 py_isspace3.

(** [s.rstrip()] on the bytes of [s]: the same walk from the end, where the
    bytes of a character arrive last byte first. *)
Definition rstrip_chars (l : list ascii) : list ascii :=
  rev (strip_space (λ b2 b1, py_isspace2 b1 b2)
         (λ b3 b2 b1, py_isspace3 b1 b2 b3) (rev l)).

(** [s.strip()] *)
Definition py_strip (s : string) : string :=
  string_of_list_ascii (rstrip_chars (lstrip_chars (list_ascii_of_string s))).

(** [s.split(sep)] for a one-character separator: never the empty list. *)
Fixpoint py_split (sep : ascii) (s : string) : list string :=
  match s with
  | EmptyString => [EmptyString]
  | String c s' =>
      if Ascii.eqb c sep then EmptyString :: py_split sep s'
      else match py_split sep s' with
           | w :: ws => String c w :: ws
           | [] => [String c EmptyString]
           end
  end.

(** Truth value of a [str]. *)
Definition str_truthy (s : string) : bool :=
  match s with EmptyString => false | _ => true end.

(** Truth value of a [str | None]. *)
Definition opt_str_truthy (s : option string) : bool :=
  match s with Some s => str_truthy s | None => false end.

Definition _extract_str_list_from_comma_str (str : option string)
  : list string :=
  match str with
  | None => []
  | Some s =>
      if negb (str_truthy s) then []
      else filter (λ x, str_truthy x = true) (py_strip <$> py_split "," s)
  end.

Definition _extract_ids_from_urls (urls : list string) : list string :=
  (λ url, List.last (py_split "/" url) EmptyString) <$> urls.

(* ================================================================= *)
(** ** Exceptions and credentials *)

Inductive exn :=
| ConnectorValidationError (msg : string)
| RuntimeError (msg : string)
| PermissionError (msg : string)
| IndexError
| HttpError (status_code : Z) (msg : string)
| OtherException (msg : string).

(** [str(e)] *)
Definition exn_str (e : exn) : string :=
  match e with
  | ConnectorValidationError m | RuntimeError m | PermissionError m
  | HttpError _ m | OtherException m => m
  | IndexError => "list index out of range"
  end.

Inductive result (A : Type) :=
| Ok (a : A)
| Raise (e : exn).
Arguments Ok {A} a.
Arguments Raise {A} e.

Inductive Credentials := OAuthCredentials | ServiceAccountCredentials.

(* ================================================================= *)
(** ** ScopeResolver: [_clean_requested_drive_ids] *)

Definition _clean_requested_drive_ids
    (requested_drive_ids requested_folder_ids all_drive_ids_available
       : gset string) : gset string * gset string :=
  let invalid_requested_drive_ids :=
    requested_drive_ids ∖ all_drive_ids_available in
  let filtered_folder_ids :=
    requested_folder_ids ∖ all_drive_ids_available in
  let filtered_folder_ids :=
    if bool_decide (invalid_requested_drive_ids ≠ ∅)
    then filtered_folder_ids ∪ invalid_requested_drive_ids
    else filtered_folder_ids in
  let valid_requested_drive_ids :=
    requested_drive_ids ∖ invalid_requested_drive_ids in
  (valid_requested_drive_ids, filtered_folder_ids).

(* ================================================================= *)
(** ** The connector object and its constructor *)

Record GoogleDriveConnector := {
  batch_size : Z;
  include_files_shared_with_me : bool;
  include_my_drives : bool;
  include_shared_drives : bool;
  _requested_shared_drive_ids : gset string;
  _requested_my_drive_emails : gset string;
  _requested_folder_ids : gset string;
  _primary_admin_email : option string;
  _creds : option Credentials;
  _retrieved_ids : gset string
}.

(** [GoogleDriveConnector.__init__]; the deprecated parameters only log. *)
Definition __init__
    (include_shared_drives include_my_drives include_files_shared_with_me
       : bool)
    (shared_drive_urls my_drive_emails shared_folder_urls : option string)
    (batch_size : Z) : result GoogleDriveConnector :=
  if negb include_shared_drives
     && negb include_my_drives
     && negb include_files_shared_with_me
     && negb (opt_str_truthy shared_folder_urls)
     && negb (opt_str_truthy my_drive_emails)
     && negb (opt_str_truthy shared_drive_urls)
  then Raise (ConnectorValidationError
    "Nothing to index. Please specify at least one of the following: include_shared_drives, include_my_drives, include_files_shared_with_me, shared_folder_urls, or my_drive_emails")
  else
    let specific_requests_made :=
      opt_str_truthy shared_drive_urls
      || opt_str_truthy my_drive_emails
      || opt_str_truthy shared_folder_urls in
    let shared_drive_url_list :=
      _extract_str_list_from_comma_str shared_drive_urls in
    let shared_folder_url_list :=
      _extract_str_list_from_comma_str shared_folder_urls in
    Ok {|
      batch_size := batch_size;
      include_files_shared_with_me :=
        if specific_requests_made then false
        else include_files_shared_with_me;
      include_my_drives :=
        if specific_requests_made then false else include_my_drives;
      include_shared_drives :=
        if specific_requests_made then false else include_shared_drives;
      _requested_shared_drive_ids :=
        list_to_set (_extract_ids_from_urls shared_drive_url_list);
      _requested_my_drive_emails :=
        list_to_set (_extract_str_list_from_comma_str my_drive_emails);
      _requested_folder_ids :=
        list_to_set (_extract_ids_from_urls shared_folder_url_list);
      _primary_admin_email := None;
      _creds := None;
      _retrieved_ids := ∅
    |}.

(** [load_credentials], reduced to what the retrieval code reads back: the
    primary admin address and the kind of credential object. *)
Definition load_credentials (self : GoogleDriveConnector)
    (primary_admin : string) (creds : Credentials) : GoogleDriveConnector :=
  {| batch_size := batch_size self;
     include_files_shared_with_me := include_files_shared_with_me self;
     include_my_drives := include_my_drives self;
     include_shared_drives := include_shared_drives self;
     _requested_shared_drive_ids := _requested_shared_drive_ids self;
     _requested_my_drive_emails := _requested_my_drive_emails self;
     _requested_folder_ids := _requested_folder_ids self;
     _primary_admin_email := Some primary_admin;
     _creds := Some creds;
     _retrieved_ids := _retrieved_ids self |}.

(** The properties [primary_admin_email] and [creds]. *)
Definition primary_admin_email (self : GoogleDriveConnector) : result string :=
  match _primary_admin_email self with
  | Some a => Ok a
  | None => Raise (RuntimeError
      "Primary admin email missing, should not call this property before calling load_credentials")
  end.

Definition creds (self : GoogleDriveConnector) : result Credentials :=
  match _creds self with
  | Some c => Ok c
  | None => Raise (RuntimeError
      "Creds missing, should not call this property before calling load_credentials")
  end.

(* ================================================================= *)
(** ** Raw items, the store behind the collaborators, the scheduler *)

(** [GoogleDriveFileType]: a dictionary of which the connector itself reads
    only ["owners"] (a list of dictionaries with an optional
    ["emailAddress"]); [owners = None] is a missing key. *)
Record GoogleDriveFileType := {
  file_id : string;
  owners : option (list (option string))
}.

(** The converted records are opaque payloads for the connector. *)
Record Document := { document_id : string }.
Record SlimDocument := { slim_id : string }.

(** The optional time window handed through to the listing calls. *)
Record Window := { start : option Z; end_ : option Z }.

(** What a principal sees below a folder: its files and its sub-folders. *)
#[warnings="-register-all"]
Inductive folder :=
| Folder (folder_id : string) (files : list GoogleDriveFileType)
         (subfolders : list folder).

Definition id_of (t : folder) : string :=
  match t with Folder folder_id _ _ => folder_id end.

(** The answers of the external collaborators. The first argument of the
    per-principal calls is the address the [drive_service] acts as. *)
Record World := {
  (** [retry_builder(tries=3, delay=1)(get_root_folder_id)(drive_service)]:
      [None] when it returns, [Some e] when it ends up raising [e] *)
  get_root_folder_id : string → option exn;
  (** [admin_service.users().list] for the query isAdmin=true/false: the
      ["primaryEmail"] of each user *)
  users_list : bool → list (option string);
  (** [drives().list] with [useDomainAdminAccess]: the ["id"] of each drive *)
  drives_list : string → bool → list string;
  my_drive_files : string → bool → Window → list GoogleDriveFileType;
  my_drive_containers : string → list string;
  shared_drive_files :
    string → string → bool → Window → list GoogleDriveFileType;
  folder_listing :
    string → string → Window → list GoogleDriveFileType * list folder;
  files_for_oauth :
    string → bool → bool → bool → bool → Window → list GoogleDriveFileType;
  (** [doc_conversion.convert_drive_item_to_document] with the services of
      the given address: a document, [None], or an exception *)
  convert_drive_item_to_document :
    string → GoogleDriveFileType → result (option Document);
  (** [doc_conversion.build_slim_document] *)
  build_slim_document : GoogleDriveFileType → option SlimDocument
}.

(** The constants imported from [shared_constants]. *)
Record Constants := {
  SLIM_BATCH_SIZE : Z;
  MISSING_SCOPES_ERROR_STR : string;
  ONYX_SCOPE_INSTRUCTIONS : string
}.

(** [IndexingHeartbeatInterface]: [should_stop n] is the answer to the call
    made after [n] earlier calls; [progress] only reports. *)
Record IndexingHeartbeatInterface := { should_stop : nat → bool }.

(** The orders Python leaves open: iteration over a set and the order in
    which [as_completed] returns the submitted futures. *)
Record Scheduler := {
  set_iter : gset string → list string;
  set_iter_perm : ∀ s, set_iter s ≡ₚ elements s;
  as_completed : ∀ A : Type, list A → list A;
  as_completed_perm : ∀ (A : Type) (l : list A), as_completed A l ≡ₚ l
}.

(** The scheduler that walks sets in [elements] order and completes futures
    in submission order. *)
Definition fifo : Scheduler :=
  {| set_iter := elements;
     set_iter_perm := λ s, reflexivity (elements s);
     as_completed := λ A l, l;
     as_completed_perm := λ A l, reflexivity l |}.

(* ================================================================= *)
(** ** Generators over the ledger *)

(** Calls that leave the connector, in the order they are made. The boolean
    of a listing records whether the identifier was in the ledger when the
    retriever reached the container; it is a ghost value and influences
    nothing. *)
Inductive event :=
| EvProbe (user : string)
| EvUsersList (is_admin : bool)
| EvDrivesList
| EvMyDrive (user : string)
| EvOAuthFiles (shared_with_me my_drives shared_drives : bool)
| EvSharedDrive (user drive_id : string) (visited : bool)
| EvCrawl (user parent_id : string)
| EvFolder (user folder_id : string) (visited : bool).

Record st := { led : gset string; log : list event }.

(** A generator run to exhaustion: every yielded item together with the
    state in which the generator is suspended at that [yield], the state it
    ends in, and its return value or the exception that ended it. *)
Record run (A : Type) := {
  yielded : list (GoogleDriveFileType * st);
  final : st;
  out : result A
}.
Arguments yielded {A} r.
Arguments final {A} r.
Arguments out {A} r.

Definition Gen (A : Type) : Type := st → run A.

Definition ret {A} (a : A) : Gen A :=
  λ s, {| yielded := []; final := s; out := Ok a |}.

Definition bind {A B} (m : Gen A) (k : A → Gen B) : Gen B :=
  λ s,
    let r := m s in
    match out r with
    | Ok a =>
        let r' := k a (final r) in
        {| yielded := yielded r ++ yielded r';
           final := final r';
           out := out r' |}
    | Raise e => {| yielded := yielded r; final := final r; out := Raise e |}
    end.

Notation "'let*' x ':=' m 'in' k" := (bind m (λ x, k))
  (at level 10, x name, m at level 100, k at level 200, only parsing).
Notation "m >> k" := (bind m (λ _, k))
  (at level 100, k at level 200, right associativity, only parsing).

Definition raise {A} (e : exn) : Gen A :=
  λ s, {| yielded := []; final := s; out := Raise e |}.

Definition lift {A} (r : result A) : Gen A :=
  match r with Ok a => ret a | Raise e => raise e end.

(** [yield from l] for an already computed list. *)
Definition yield_from (l : list GoogleDriveFileType) : Gen unit :=
  λ s, {| yielded := (λ f, (f, s)) <$> l; final := s; out := Ok tt |}.

Definition emit (e : event) : Gen unit :=
  λ s, {| yielded := [];
          final := {| led := led s; log := log s ++ [e] |};
          out := Ok tt |}.

(** Reading [self._retrieved_ids]. *)
Definition retrieved_ids : Gen (gset string) :=
  λ s, {| yielded := []; final := s; out := Ok (led s) |}.

(** [for x in l: body(x)] *)
Definition for_each {A} (l : list A) (body : A → Gen unit) : Gen unit :=
  (fix loop (l : list A) : Gen unit :=
     match l with
     | [] => ret tt
     | x :: l' => body x >> loop l'
     end) l.

(** [self._update_traversed_parent_ids] *)
Definition _update_traversed_parent_ids (folder_id : string) : Gen unit :=
  λ s, {| yielded := [];
          final := {| led := {[folder_id]} ∪ led s; log := log s |};
          out := Ok tt |}.

(* ================================================================= *)
(** ** The listing collaborators *)

Section Collaborators.
Context (w : World).

(** Modelled from the spec: [file_retrieval.get_all_files_in_my_drive] is
    not in the file. "If this principal's personal drive is in scope,
    enumerate it fully; every container ID encountered is marked in the
    ledger as it is entered." *)
Definition get_all_files_in_my_drive (user : string) (is_slim : bool)
    (win : Window) : Gen unit :=
  emit (EvMyDrive user) >>
  for_each (my_drive_containers w user) _update_traversed_parent_ids >>
  yield_from (my_drive_files w user is_slim win).

(** Modelled from the spec: [file_retrieval.get_files_in_shared_drive] is
    not in the file. "enumerate it fully (top-level listing, since a shared
    drive is flat from the API's perspective) and mark it visited." *)
Definition get_files_in_shared_drive (user drive_id : string)
    (is_slim : bool) (win : Window) : Gen unit :=
  let* seen := retrieved_ids in
  emit (EvSharedDrive user drive_id (bool_decide (drive_id ∈ seen))) >>
  yield_from (shared_drive_files w user drive_id is_slim win) >>
  _update_traversed_parent_ids drive_id.

(** Modelled from the spec: [file_retrieval.crawl_folders_for_files] is not
    in the file. "recursively enumerate: mark the folder visited before
    descending, list its immediate children, recurse into any that are
    sub-folders, skip a child if it is already in the ledger." The folder
    the crawl starts from is not tested; that it is "not already in the
    ledger" is left to the caller. The flag of the listing records whether
    the folder was in the ledger when the crawl reached it. *)
Fixpoint crawl_tree (user : string) (t : folder) : Gen unit :=
  match t with
  | Folder folder_id files subfolders =>
      let* traversed_parent_ids := retrieved_ids in
      _update_traversed_parent_ids folder_id >>
      emit (EvFolder user folder_id
              (bool_decide (folder_id ∈ traversed_parent_ids))) >>
      yield_from files >>
      for_each subfolders
        (λ child,
           let* traversed_parent_ids := retrieved_ids in
           if bool_decide (id_of child ∈ traversed_parent_ids) then ret tt
           else crawl_tree user child)
  end.

(** What [crawl_tree] does with a sub-folder. *)
Definition crawl_child (user : string) (child : folder) : Gen unit :=
  let* traversed_parent_ids := retrieved_ids in
  if bool_decide (id_of child ∈ traversed_parent_ids) then ret tt
  else crawl_tree user child.

(** Modelled from the spec: the entry point of the crawl, called with the
    folder to start from; what the principal sees below it is looked up in
    the store. *)
Definition crawl_folders_for_files (user parent_id : string)
    (win : Window) : Gen unit :=
  emit (EvCrawl user parent_id) >>
  let '(files, subfolders) := folder_listing w user parent_id win in
  crawl_tree user (Folder parent_id files subfolders).

(** Modelled from the spec: [file_retrieval.get_all_files_for_oauth] is not
    in the file; it is handed no ledger callback. "a single combined
    retrieval call covers everything" *)
Definition get_all_files_for_oauth (user : string)
    (include_files_shared_with_me include_my_drives include_shared_drives
       is_slim : bool) (win : Window) : Gen unit :=
  emit (EvOAuthFiles include_files_shared_with_me include_my_drives
          include_shared_drives) >>
  yield_from (files_for_oauth w user include_files_shared_with_me
                include_my_drives include_shared_drives is_slim win).

End Collaborators.

(* ================================================================= *)
(** ** Retrieval: the methods of [GoogleDriveConnector] *)

Definition is_service_account (c : Credentials) : bool :=
  match c with
  | ServiceAccountCredentials => true
  | OAuthCredentials => false
  end.

(** The loop body of [_get_all_user_emails] over one page stream. *)
Definition append_new_emails (users : list (option string))
    (user_emails : list string) : list string :=
  foldl (λ acc user,
           match user with
           | Some email =>
               if str_truthy email && negb (bool_decide (email ∈ acc))
               then acc ++ [email] else acc
           | None => acc
           end) user_emails users.

Section Retrieval.
Context (sch : Scheduler) (w : World) (self : GoogleDriveConnector).

Definition _get_all_user_emails : Gen (list string) :=
  let* admin := lift (primary_admin_email self) in
  let user_emails := [admin] in
  let* c := lift (creds self) in
  match c with
  | OAuthCredentials => ret user_emails
  | ServiceAccountCredentials =>
      emit (EvUsersList true) >>
      let user_emails := append_new_emails (users_list w true) user_emails in
      emit (EvUsersList false) >>
      ret (append_new_emails (users_list w false) user_emails)
  end.

Definition get_all_drive_ids : Gen (gset string) :=
  let* c := lift (creds self) in
  let* admin := lift (primary_admin_email self) in
  emit EvDrivesList >>
  ret (list_to_set (drives_list w admin (is_service_account c))).

Definition _impersonate_user_for_retrieval (user_email : string)
    (is_slim : bool) (filtered_drive_ids filtered_folder_ids : gset string)
    (win : Window) : Gen unit :=
  let* _ := lift (creds self) in
  emit (EvProbe user_email) >>
  match get_root_folder_id w user_email with
  | Some (HttpError status_code msg) =>
      if (status_code =? 401)%Z then ret tt
      else raise (HttpError status_code msg)
  | Some e => raise e
  | None =>
      (if include_my_drives self
          || bool_decide (user_email ∈ _requested_my_drive_emails self)
       then get_all_files_in_my_drive w user_email is_slim win
       else ret tt) >>
      let* seen := retrieved_ids in
      let remaining_drive_ids := filtered_drive_ids ∖ seen in
      for_each (set_iter sch remaining_drive_ids)
        (λ drive_id,
           get_files_in_shared_drive w user_email drive_id is_slim win) >>
      let* seen := retrieved_ids in
      let remaining_folders := filtered_folder_ids ∖ seen in
      for_each (set_iter sch remaining_folders)
        (λ folder_id, crawl_folders_for_files w user_email folder_id win)
  end.

(** The scope computation shared, line for line, by both retrieval
    managers. *)
Definition ids_to_retrieve (all_drive_ids : gset string)
    : gset string * gset string :=
  if bool_decide (_requested_shared_drive_ids self ≠ ∅)
     || bool_decide (_requested_folder_ids self ≠ ∅)
  then _clean_requested_drive_ids (_requested_shared_drive_ids self)
         (_requested_folder_ids self) all_drive_ids
  else if include_shared_drives self then (all_drive_ids, ∅)
  else (∅, ∅).

(** [executor.submit] of a generator function only creates the generator:
    the bodies run when [yield from future.result()] drains them, one
    after the other, in the order [as_completed] returns the futures. *)
Definition _manage_service_account_retrieval (is_slim : bool)
    (win : Window) : Gen unit :=
  let* all_org_emails := _get_all_user_emails in
  let* all_drive_ids := get_all_drive_ids in
  let '(drive_ids_to_retrieve, folder_ids_to_retrieve) :=
    ids_to_retrieve all_drive_ids in
  for_each (as_completed sch string all_org_emails)
    (λ email,
       _impersonate_user_for_retrieval email is_slim
         drive_ids_to_retrieve folder_ids_to_retrieve win).

Definition _manage_oauth_retrieval (is_slim : bool) (win : Window)
    : Gen unit :=
  let* _ := lift (creds self) in
  let* admin := lift (primary_admin_email self) in
  (if include_files_shared_with_me self || include_my_drives self
   then get_all_files_for_oauth w admin
          (include_files_shared_with_me self) (include_my_drives self)
          (include_shared_drives self) is_slim win
   else ret tt) >>
  let all_requested :=
    include_files_shared_with_me self
    && include_my_drives self
    && include_shared_drives self in
  if all_requested then ret tt
  else
    let* all_drive_ids := get_all_drive_ids in
    let '(drive_ids_to_retrieve, folder_ids_to_retrieve) :=
      ids_to_retrieve all_drive_ids in
    for_each (set_iter sch drive_ids_to_retrieve)
      (λ drive_id,
         get_files_in_shared_drive w admin drive_id is_slim win) >>
    let* seen := retrieved_ids in
    let remaining_folders := folder_ids_to_retrieve ∖ seen in
    for_each (set_iter sch remaining_folders)
      (λ folder_id, crawl_folders_for_files w admin folder_id win).

Definition _fetch_drive_items (is_slim : bool) (win : Window) : Gen unit :=
  let* c := lift (creds self) in
  match c with
  | ServiceAccountCredentials => _manage_service_account_retrieval is_slim win
  | OAuthCredentials => _manage_oauth_retrieval is_slim win
  end.

End Retrieval.

(* ================================================================= *)
(** ** BatchAssembler and the crawl operations *)

(** [needle in haystack] for strings. *)
Fixpoint str_contains (needle haystack : string) : bool :=
  String.prefix needle haystack
  || match haystack with
     | EmptyString => false
     | String _ rest => str_contains needle rest
     end.

(** [if l:] for a list. *)
Definition nonempty {A} (l : list A) : bool :=
  match l with [] => false | _ => true end.

(** The exception raised on a stop signal. *)
Definition stop_signal : exn :=
  RuntimeError "_extract_slim_docs_from_google_drive: Stop signal detected".

(** What a crawl operation delivers when its consumer drains it: the
    batches, how it ended, the outside calls it made, and the connector
    object as it is left behind. *)
Record crawl (B : Type) := {
  batches : list (list B);
  ending : result unit;
  calls : list event;
  self_after : GoogleDriveConnector
}.
Arguments batches {B} c.
Arguments ending {B} c.
Arguments calls {B} c.
Arguments self_after {B} c.

Definition with_retrieved_ids (self : GoogleDriveConnector)
    (ids : gset string) : GoogleDriveConnector :=
  {| batch_size := batch_size self;
     include_files_shared_with_me := include_files_shared_with_me self;
     include_my_drives := include_my_drives self;
     include_shared_drives := include_shared_drives self;
     _requested_shared_drive_ids := _requested_shared_drive_ids self;
     _requested_my_drive_emails := _requested_my_drive_emails self;
     _requested_folder_ids := _requested_folder_ids self;
     _primary_admin_email := _primary_admin_email self;
     _creds := _creds self;
     _retrieved_ids := ids |}.

(** The state a method starts from: the ledger of the object, no calls. *)
Definition enter (self : GoogleDriveConnector) : st :=
  {| led := _retrieved_ids self; log := [] |}.

Definition leave {B} (self : GoogleDriveConnector)
    (bs : list (list B)) (e : result unit) (s : st) : crawl B :=
  {| batches := bs; ending := e; calls := log s;
     self_after := with_retrieved_ids self (led s) |}.

Section Crawl.
Context (sch : Scheduler) (w : World) (k : Constants).
Context (self : GoogleDriveConnector).

(** [_convert_single_file], with [creds] and [primary_admin_email] already
    bound by [partial]. *)
Definition _convert_single_file (primary_admin_email : string)
    (file : GoogleDriveFileType) : result (option Document) :=
  let first_owner :=
    match owners file with
    | None => Ok None
    | Some [] => Raise IndexError
    | Some (o :: _) => Ok o
    end in
  match first_owner with
  | Raise e => Raise e
  | Ok email =>
      let user_email :=
        match email with
        | Some a => if str_truthy a then a else primary_admin_email
        | None => primary_admin_email
        end in
      convert_drive_item_to_document w user_email file
  end.

(** The conversion of one [files_batch]: submit every file, then collect
    in completion order what is neither [None] nor an exception. *)
Definition convert_files_batch (primary_admin_email : string)
    (files_batch : list GoogleDriveFileType) : list Document :=
  let futures := _convert_single_file primary_admin_email <$> files_batch in
  omap (λ future,
          match future with
          | Ok (Some doc) => Some doc
          | Ok None => None
          | Raise _ => None
          end) (as_completed sch _ futures).

(** [if documents: yield documents] *)
Definition yield_if_any (documents : list Document) : list (list Document) :=
  if nonempty documents then [documents] else [].

(** The [for file in self._fetch_drive_items(...)] loop of
    [_extract_docs_from_google_drive]: the batches it yields and the
    [files_batch] it ends with. *)
Fixpoint docs_loop (primary_admin_email : string)
    (items : list GoogleDriveFileType)
    (files_batch : list GoogleDriveFileType)
    : list (list Document) * list GoogleDriveFileType :=
  match items with
  | [] => ([], files_batch)
  | file :: rest =>
      let files_batch := files_batch ++ [file] in
      if (batch_size self <=? Z.of_nat (length files_batch))%Z then
        let documents := convert_files_batch primary_admin_email files_batch in
        let '(later, last) := docs_loop primary_admin_email rest [] in
        (yield_if_any documents ++ later, last)
      else docs_loop primary_admin_email rest files_batch
  end.

Definition _extract_docs_from_google_drive (win : Window) : crawl Document :=
  match creds self with
  | Raise e => leave self [] (Raise e) (enter self)
  | Ok _ =>
  match primary_admin_email self with
  | Raise e => leave self [] (Raise e) (enter self)
  | Ok admin =>
      let r := _fetch_drive_items sch w self false win (enter self) in
      let '(bs, files_batch) := docs_loop admin (fst <$> yielded r) [] in
      match out r with
      | Raise e => leave self bs (Raise e) (final r)
      | Ok _ =>
          let rest :=
            if nonempty files_batch
            then yield_if_any (convert_files_batch admin files_batch)
            else [] in
          leave self (bs ++ rest) (Ok tt) (final r)
      end
  end end.

(** The [try]/[except] shared by the three public operations. *)
Definition reraise {B} (c : crawl B) : crawl B :=
  match ending c with
  | Ok _ => c
  | Raise e =>
      {| batches := batches c;
         ending :=
           if str_contains (MISSING_SCOPES_ERROR_STR k) (exn_str e)
           then Raise (PermissionError (ONYX_SCOPE_INSTRUCTIONS k))
           else Raise e;
         calls := calls c;
         self_after := self_after c |}
  end.

Definition load_from_state : crawl Document :=
  reraise (_extract_docs_from_google_drive {| start := None; end_ := None |}).

Definition poll_source (start end_ : Z) : crawl Document :=
  reraise (_extract_docs_from_google_drive
             {| start := Some start; end_ := Some end_ |}).

(** The [for file in self._fetch_drive_items(...)] loop of
    [_extract_slim_docs_from_google_drive]. [checks] counts the calls of
    [should_stop] made so far, [cur] is the state the item generator is
    suspended in. The result holds the batches yielded, then either the
    [slim_batch] the loop ends with or the exception that left it, and
    the state of the item generator at that moment. *)
Fixpoint slim_loop (callback : option IndexingHeartbeatInterface)
    (items : list (GoogleDriveFileType * st))
    (slim_batch : list SlimDocument) (checks : nat) (cur : st)
    : list (list SlimDocument) * result (list SlimDocument) * st :=
  match items with
  | [] => ([], Ok slim_batch, cur)
  | (file, s) :: rest =>
      let slim_batch :=
        match build_slim_document w file with
        | Some doc => slim_batch ++ [doc]
        | None => slim_batch
        end in
      if (SLIM_BATCH_SIZE k <=? Z.of_nat (length slim_batch))%Z then
        let stop :=
          match callback with
          | Some cb => should_stop cb checks
          | None => false
          end in
        if stop then
          ([slim_batch], Raise stop_signal, s)
        else
          let checks :=
            match callback with Some _ => S checks | None => checks end in
          let '(later, last, s') := slim_loop callback rest [] checks s in
          (slim_batch :: later, last, s')
      else slim_loop callback rest slim_batch checks s
  end.

Definition _extract_slim_docs_from_google_drive (win : Window)
    (callback : option IndexingHeartbeatInterface) : crawl SlimDocument :=
  let r := _fetch_drive_items sch w self true win (enter self) in
  match slim_loop callback (yielded r) [] 0 (enter self) with
  | (bs, Raise e, s) => leave self bs (Raise e) s
  | (bs, Ok slim_batch, _) =>
      match out r with
      | Raise e => leave self bs (Raise e) (final r)
      | Ok _ => leave self (bs ++ [slim_batch]) (Ok tt) (final r)
      end
  end.

Definition retrieve_all_slim_documents (win : Window)
    (callback : option IndexingHeartbeatInterface) : crawl SlimDocument :=
  reraise (_extract_slim_docs_from_google_drive win callback).

End Crawl.

(* ================================================================= *)
(** ** Scenarios *)

Definition file (id : string) : GoogleDriveFileType :=
  {| file_id := id; owners := Some [Some "owner@x.org"] |}.

(** A store described by its probe answers, member roster, drive catalog,
    the items of the combined delegated-access listing, the items of each
    shared drive, the listing of each folder, and the items that cannot be
    converted or projected. *)
Definition store (probe : string → option exn)
    (members : list (option string)) (catalog : list string)
    (oauth_items : list GoogleDriveFileType)
    (drive_items : string → list GoogleDriveFileType)
    (folders : string → list GoogleDriveFileType * list folder)
    (broken : list string) : World :=
  {| get_root_folder_id := probe;
     users_list := λ is_admin, if is_admin then [] else members;
     drives_list := λ _ _, catalog;
     my_drive_files := λ _ _ _, [];
     my_drive_containers := λ _, [];
     shared_drive_files := λ _ drive_id _ _, drive_items drive_id;
     folder_listing := λ _ parent_id _, folders parent_id;
     files_for_oauth := λ _ _ _ _ _ _, oauth_items;
     convert_drive_item_to_document := λ _ f,
       if bool_decide (file_id f ∈ broken)
       then Raise (OtherException "conversion failed")
       else Ok (Some {| document_id := file_id f |});
     build_slim_document := λ f,
       if bool_decide (file_id f ∈ broken) then None
       else Some {| slim_id := file_id f |} |}.

Definition constants (slim_batch_size : Z) : Constants :=
  {| SLIM_BATCH_SIZE := slim_batch_size;
     MISSING_SCOPES_ERROR_STR :=
       "client not authorized for any of the scopes requested";
     ONYX_SCOPE_INSTRUCTIONS := "grant the required scopes" |}.

Definition whole_window : Window := {| start := None; end_ := None |}.

(** A connector as [__init__] followed by [load_credentials] leaves it. *)
Definition connector (include_shared_drives include_my_drives
    include_files_shared_with_me : bool)
    (shared_drive_urls shared_folder_urls : option string) (batch_size : Z)
    (creds : Credentials) : option GoogleDriveConnector :=
  match __init__ include_shared_drives include_my_drives
          include_files_shared_with_me shared_drive_urls None
          shared_folder_urls batch_size with
  | Ok self => Some (load_credentials self "admin@x.org" creds)
  | Raise _ => None
  end.

(* ================================================================= *)
(** ** Operations on one connector object *)

Inductive operation :=
| LoadFromState
| PollSource (start end_ : Z)
| RetrieveAllSlimDocuments (win : Window)
    (callback : option IndexingHeartbeatInterface).

(** The outside calls of one invocation and the object it leaves behind. *)
Definition invoke (sch : Scheduler) (w : World) (k : Constants)
    (op : operation) (self : GoogleDriveConnector)
    : list event * GoogleDriveConnector :=
  match op with
  | LoadFromState =>
      let c := load_from_state sch w k self in (calls c, self_after c)
  | PollSource start end_ =>
      let c := poll_source sch w k self start end_ in (calls c, self_after c)
  | RetrieveAllSlimDocuments win callback =>
      let c := retrieve_all_slim_documents sch w k self win callback in
      (calls c, self_after c)
  end.

(** Successive invocations on the same object. *)
Definition invoke_all (sch : Scheduler) (w : World) (k : Constants)
    (ops : list operation) (self : GoogleDriveConnector)
    : GoogleDriveConnector :=
  foldl (λ self op, (invoke sch w k op self).2) self ops.

(* ================================================================= *)
(** ** Vocabulary of the properties *)

(** [R] relates the state [m] starts in to the state it ends in, [Y]
    relates it to every state [m] is suspended in. *)
Definition sat_at {A} (R Y : st → st → Prop) (m : Gen A) (s : st) : Prop :=
  R s (final (m s)) ∧ Forall (λ p, Y s p.2) (yielded (m s)).

(** The fields [__init__] and [load_credentials] leave behind, written
    out; [configured_by_init] relates them to the constructor. *)
Definition configured (include_shared_drives include_my_drives
    include_files_shared_with_me : bool)
    (drive_ids folder_ids : gset string) (batch_size : Z)
    (creds : Credentials) : GoogleDriveConnector :=
  {| batch_size := batch_size;
     include_files_shared_with_me := include_files_shared_with_me;
     include_my_drives := include_my_drives;
     include_shared_drives := include_shared_drives;
     _requested_shared_drive_ids := drive_ids;
     _requested_my_drive_emails := ∅;
     _requested_folder_ids := folder_ids;
     _primary_admin_email := Some "admin@x.org";
     _creds := Some creds;
     _retrieved_ids := ∅ |}.

(** Roster admin@x.org and user@x.org, catalog {D1} with two items, and a
    probe that answers 401 for user@x.org. *)
Definition unauthorized : exn := HttpError 401 "unauthorized".

Definition roster_store : World :=
  store (λ user,
           if bool_decide (user = "user@x.org") then Some unauthorized
           else None)
    [Some "user@x.org"] ["D1"] []
    (λ drive_id,
       if bool_decide (drive_id = "D1") then [file "a"; file "b"] else [])
    (λ _, ([], [])) [].

(** The same store with a probe that answers 500 for user@x.org. *)
Definition failing_store : World :=
  store (λ user,
           if bool_decide (user = "user@x.org")
           then Some (HttpError 500 "backend error") else None)
    [Some "user@x.org"] ["D1"] []
    (λ drive_id,
       if bool_decide (drive_id = "D1") then [file "a"; file "b"] else [])
    (λ _, ([], [])) [].

(** The exception [_impersonate_user_for_retrieval] lets through when the
    access probe of a principal fails: none for an [HttpError] with status
    401, the exception itself otherwise. *)
Definition probe_raises (w : World) (user_email : string) : option exn :=
  match get_root_folder_id w user_email with
  | Some (HttpError status_code msg) =>
      if (status_code =? 401)%Z then None
      else Some (HttpError status_code msg)
  | Some e => Some e
  | None => None
  end.

(** How a loop over principals ends: with the exception of the first one
    whose probe lets one through, if any. *)
Definition first_raise (w : World) (emails : list string) : result unit :=
  match head (omap (probe_raises w) emails) with
  | Some e => Raise e
  | None => Ok tt
  end.

(** The states a generator can be observed in, in order: the one it starts
    in, the ones it is suspended in, the one it ends in. *)
Definition trajectory {A} (m : Gen A) (s : st) : list st :=
  s :: (yielded (m s)).*2 ++ [final (m s)].

Definition ledger_grows (s p : st) : Prop := led s ⊆ led p.

(** Along the run of [m] from [s] the ledger of every observed state is
    contained in the ledger of every later one. *)
Definition ascending {A} (m : Gen A) (s : st) : Prop :=
  StronglySorted ledger_grows (trajectory m s).

(* ================================================================= *)
(** ** The remaining functions of the module *)

(** The characters of a string; [c ∈ chars s] is Python's [c in s] for a
    one-character [c]. *)
Definition chars (s : string) : list ascii := list_ascii_of_string s.

(** The property [google_domain]: what follows the last ["@"] of the
    primary admin address. *)
Definition google_domain (self : GoogleDriveConnector) : result string :=
  match _primary_admin_email self with
  | Some a => Ok (List.last (py_split "@" a) EmptyString)
  | None => Raise (RuntimeError
      "Primary admin email missing, should not call this property before calling load_credentials")
  end.

(** The [for doc in executor.map(convert_func, files)] loop of
    [_process_files_batch]: [map] hands the results back in the order of
    [files] and re-raises the exception of a call when the loop reaches it.
    The result holds the batches yielded, then either the [doc_batch] the
    loop ends with or the exception that left it. *)
Fixpoint process_files_loop
    (convert_func : GoogleDriveFileType → result (option Document))
    (batch_size : Z) (files : list GoogleDriveFileType)
    (doc_batch : list Document)
    : list (list Document) * result (list Document) :=
  match files with
  | [] => ([], Ok doc_batch)
  | file :: rest =>
      match convert_func file with
      | Raise e => ([], Raise e)
      | Ok None => process_files_loop convert_func batch_size rest doc_batch
      | Ok (Some doc) =>
          let doc_batch := doc_batch ++ [doc] in
          if (batch_size <=? Z.of_nat (length doc_batch))%Z then
            let '(later, last) :=
              process_files_loop convert_func batch_size rest [] in
            (doc_batch :: later, last)
          else process_files_loop convert_func batch_size rest doc_batch
      end
  end.

(** [_process_files_batch]: the batches it yields and how it ends.
    [ThreadPoolExecutor(max_workers=min(16, len(files)))] refuses a worker
    count of zero with a [ValueError], which [exn] holds as an
    [OtherException]. *)
Definition _process_files_batch (files : list GoogleDriveFileType)
    (convert_func : GoogleDriveFileType → result (option Document))
    (batch_size : Z) : list (list Document) * result unit :=
  if nonempty files then
    match process_files_loop convert_func batch_size files [] with
    | (bs, Raise e) => (bs, Raise e)
    | (bs, Ok doc_batch) =>
        (bs ++ (if nonempty doc_batch then [doc_batch] else []), Ok tt)
    end
  else ([], Raise (OtherException "max_workers must be greater than 0")).

(** What the conversion of one raw item leaves in its batch. *)
Definition converted (w : World) (primary_admin_email : string)
    (file : GoogleDriveFileType) : option Document :=
  match _convert_single_file w primary_admin_email file with
  | Ok (Some doc) => Some doc
  | Ok None => None
  | Raise _ => None
  end.

(** [validate_connector_settings]. The two calls it makes are answered by
    [files_list] ([drive_service.files().list(pageSize=1, ...).execute()])
    and [root_folder] ([retry_builder()(get_root_folder_id)(drive_service)]):
    [None] when the call returns. The result is the exception raised, by
    class, or [None] when the method returns. *)
Module Validation.

Inductive failure :=
| HttpError (status : option Z) (msg : string)
| OtherException (msg : string).

Inductive error :=
| ConnectorMissingCredentialError
| ConnectorValidationError
| CredentialExpiredError
| InsufficientPermissionsError.

Definition validate_connector_settings (k : Constants)
    (self : GoogleDriveConnector) (files_list root_folder : option failure)
    : option error :=
  match _creds self with
  | None => Some ConnectorMissingCredentialError
  | Some c =>
      match _primary_admin_email self with
      | None => Some ConnectorValidationError
      | Some _ =>
          let raised :=
            match files_list with
            | Some e => Some e
            | None => if is_service_account c then root_folder else None
            end in
          match raised with
          | None => None
          | Some (HttpError status_code _) =>
              match status_code with
              | Some 401%Z => Some CredentialExpiredError
              | Some 403%Z => Some InsufficientPermissionsError
              | _ => Some ConnectorValidationError
              end
          | Some (OtherException msg) =>
              if str_contains (MISSING_SCOPES_ERROR_STR k) msg
              then Some InsufficientPermissionsError
              else Some ConnectorValidationError
          end
      end
  end.

End Validation.

(** What a conversion result leaves in a batch. *)
Definition delivered (r : result (option Document)) : option Document :=
  match r with
  | Ok (Some doc) => Some doc
  | Ok None => None
  | Raise _ => None
  end.

(** [p] is reached from [s] by calls that all satisfy [P]. *)
Definition only (P : event → Prop) (s p : st) : Prop :=
  ∃ evs, log p = log s ++ evs ∧ Forall P evs.

(** The calls a service-account run may make, for the roster and the
    resolved scope it works with: every per-principal call is made as a
    member of the roster, everything after the probe only as a member whose
    probe returned, a personal drive only when requested, a shared drive or
    a crawl only for an ID of the scope, and never the combined listing. *)
Definition service_account_call (w : World) (self : GoogleDriveConnector)
    (roster : list string) (drives folders : gset string) (e : event)
    : Prop :=
  match e with
  | EvProbe user => user ∈ roster
  | EvMyDrive user =>
      user ∈ roster ∧ get_root_folder_id w user = None
      ∧ (include_my_drives self = true
         ∨ user ∈ _requested_my_drive_emails self)
  | EvSharedDrive user drive_id _ =>
      user ∈ roster ∧ get_root_folder_id w user = None ∧ drive_id ∈ drives
  | EvCrawl user parent_id =>
      user ∈ roster ∧ get_root_folder_id w user = None ∧ parent_id ∈ folders
  | EvFolder user _ _ => user ∈ roster ∧ get_root_folder_id w user = None
  | EvOAuthFiles _ _ _ => False
  | EvUsersList _ | EvDrivesList => True
  end.

(** The calls a delegated-access run may make: never a probe, a roster
    listing or a personal-drive enumeration, the combined listing only with
    the flags of the connector and when one of the first two is set, and a
    shared drive or a crawl only as the primary admin and for an ID of the
    resolved scope. *)
Definition delegated_call (self : GoogleDriveConnector) (admin : string)
    (drives folders : gset string) (e : event) : Prop :=
  match e with
  | EvProbe _ | EvUsersList _ | EvMyDrive _ => False
  | EvOAuthFiles shared_with_me my_drives shared_drives =>
      shared_with_me = include_files_shared_with_me self
      ∧ my_drives = include_my_drives self
      ∧ shared_drives = include_shared_drives self
      ∧ shared_with_me || my_drives = true
  | EvSharedDrive user drive_id _ => user = admin ∧ drive_id ∈ drives
  | EvCrawl user parent_id => user = admin ∧ parent_id ∈ folders
  | EvFolder user _ _ => user = admin
  | EvDrivesList => True
  end.

(** [m] run from any state makes only calls that satisfy [P], up to its end
    and up to every [yield]. *)
Definition calls_only {A} (P : event → Prop) (m : Gen A) : Prop :=
  ∀ s, sat_at (only P) (only P) m s.

(** The calls that list no content: probes, the roster and the drive
    catalog. *)
Definition bookkeeping (e : event) : Prop :=
  match e with
  | EvProbe _ | EvUsersList _ | EvDrivesList => True
  | _ => False
  end.

(** [m] yields nothing, leaves the ledger alone and makes bookkeeping calls
    only. *)
Definition silent {A} (m : Gen A) : Prop :=
  ∀ s, yielded (m s) = []
       ∧ led (final (m s)) = led s
       ∧ only bookkeeping s (final (m s)).


(* ================================================================= *)
(** * Properties *)

(* ----------------------------------------------------------------- *)
(** ** ScopeResolver *)

Section ScopeResolver.
Implicit Types (requested_drive_ids requested_folder_ids : gset string).
Implicit Types (all_drive_ids_available : gset string) (x : string).

Lemma clean_drive_ids requested_drive_ids requested_folder_ids
    all_drive_ids_available :
  (_clean_requested_drive_ids requested_drive_ids requested_folder_ids
     all_drive_ids_available).1
  = requested_drive_ids ∩ all_drive_ids_available.
Proof.
  unfold _clean_requested_drive_ids. cbn [fst].
  apply set_eq. intros x. rewrite !elem_of_difference, elem_of_intersection.
  split; [|tauto]. intros [Hx Hn]. split; [done|].
  destruct (decide (x ∈ all_drive_ids_available)); tauto.
Qed.

Lemma clean_folder_ids requested_drive_ids requested_folder_ids
    all_drive_ids_available :
  (_clean_requested_drive_ids requested_drive_ids requested_folder_ids
     all_drive_ids_available).2
  = (requested_folder_ids ∪ requested_drive_ids) ∖ all_drive_ids_available.
Proof.
  unfold _clean_requested_drive_ids. cbn [snd].
  case_bool_decide as Hne; [set_solver|].
  assert (requested_drive_ids ∖ all_drive_ids_available = ∅) as Hemp.
  { destruct (decide (requested_drive_ids ∖ all_drive_ids_available = ∅));
      [done | by destruct Hne]. }
  set_solver.
Qed.

(** C2. A requested drive ID that is not among the visible drive IDs ends
    up in the resolved folder set and not in the resolved drive set; a
    requested drive ID that is visible stays in the resolved drive set. *)
Theorem clean_requested_drive_ids_reclassifies
    requested_drive_ids requested_folder_ids all_drive_ids_available x :
  x ∈ requested_drive_ids →
  let resolved :=
    _clean_requested_drive_ids requested_drive_ids requested_folder_ids
      all_drive_ids_available in
  (x ∉ all_drive_ids_available → x ∈ resolved.2 ∧ x ∉ resolved.1)
  ∧ (x ∈ all_drive_ids_available → x ∈ resolved.1).
Proof.
  intros Hx resolved. subst resolved.
  rewrite clean_drive_ids, clean_folder_ids. set_solver.
Qed.

(** C9, as amended. A requested folder ID that is among the visible drive
    IDs is never in the resolved folder set; it is in the resolved drive
    set exactly when it was also requested as a drive ID. *)
Theorem clean_requested_folder_that_is_drive
    requested_drive_ids requested_folder_ids all_drive_ids_available x :
  x ∈ requested_folder_ids →
  x ∈ all_drive_ids_available →
  let resolved :=
    _clean_requested_drive_ids requested_drive_ids requested_folder_ids
      all_drive_ids_available in
  x ∉ resolved.2 ∧ (x ∈ resolved.1 ↔ x ∈ requested_drive_ids).
Proof.
  intros Hx Ha resolved. subst resolved.
  rewrite clean_drive_ids, clean_folder_ids. set_solver.
Qed.

End ScopeResolver.

Lemma clean_requested_drive_ids_reclassifies_witness :
  let resolved := _clean_requested_drive_ids {["D1"; "F1"]} ∅ {["D1"]} in
  ("F1" ∉ ({["D1"]} : gset string) → "F1" ∈ resolved.2 ∧ "F1" ∉ resolved.1)
  ∧ ("F1" ∈ ({["D1"]} : gset string) → "F1" ∈ resolved.1).
Proof.
  apply (clean_requested_drive_ids_reclassifies {["D1"; "F1"]} ∅ {["D1"]} "F1").
  vm_compute. reflexivity.
Defined.

Lemma clean_requested_folder_that_is_drive_witness :
  let resolved := _clean_requested_drive_ids ∅ {["D1"]} {["D1"]} in
  "D1" ∉ resolved.2 ∧ ("D1" ∈ resolved.1 ↔ "D1" ∈ (∅ : gset string)).
Proof.
  apply (clean_requested_folder_that_is_drive ∅ {["D1"]} {["D1"]} "D1");
    vm_compute; reflexivity.
Defined.

(** C9 as stated fails: an ID requested both as a folder and as a drive, and
    visible as a drive, is kept in the resolved drive set. *)
Lemma clean_requested_folder_kept_as_drive :
  let resolved := _clean_requested_drive_ids {["D1"]} {["D1"]} {["D1"]} in
  "D1" ∈ ({["D1"]} : gset string)
  ∧ ¬ ("D1" ∉ resolved.2 ∧ "D1" ∉ resolved.1).
Proof.
  split; [set_solver|]. intros [_ Hd]. apply Hd. vm_compute. reflexivity.
Qed.

(* ----------------------------------------------------------------- *)
(** ** Construction *)

Lemma extract_str_list_truthy (s : option string) :
  _extract_str_list_from_comma_str s ≠ [] → opt_str_truthy s = true.
Proof.
  destruct s as [s|]; [|done]. cbn. by destruct (str_truthy s).
Qed.

Lemma extract_ids_nonempty (urls : list string) :
  (list_to_set (_extract_ids_from_urls urls) : gset string) ≠ ∅ → urls ≠ [].
Proof. intros H ->. by apply H. Qed.

(** C7. When any of the explicit requests (shared drive URLs, my-drive
    e-mails, shared folder URLs) is non-empty, as a parameter or as the
    list or set parsed from it, the constructed connector has
    include_files_shared_with_me, include_my_drives and
    include_shared_drives all false. *)
Theorem init_specific_requests_clear_flags
    (isd imd ifs : bool) (sdu mde sfu : option string) (bs : Z)
    (self : GoogleDriveConnector) :
  __init__ isd imd ifs sdu mde sfu bs = Ok self →
  opt_str_truthy sdu = true ∨ opt_str_truthy mde = true
  ∨ opt_str_truthy sfu = true
  ∨ _requested_shared_drive_ids self ≠ ∅
  ∨ _requested_my_drive_emails self ≠ ∅
  ∨ _requested_folder_ids self ≠ ∅ →
  include_files_shared_with_me self = false
  ∧ include_my_drives self = false
  ∧ include_shared_drives self = false.
Proof.
  unfold __init__. intros Hinit Hreq.
  destruct (_ && negb (opt_str_truthy sdu)); [done|].
  injection Hinit as <-. cbn in *.
  assert (opt_str_truthy sdu || opt_str_truthy mde || opt_str_truthy sfu
          = true) as ->; [|done].
  destruct Hreq as [H|[H|[H|[H|[H|H]]]]].
  - by rewrite H.
  - rewrite H. by rewrite orb_true_r.
  - rewrite H. by rewrite orb_true_r.
  - apply extract_ids_nonempty in H.
    apply extract_str_list_truthy in H. by rewrite H.
  - rewrite (extract_str_list_truthy mde); [by rewrite orb_true_r|].
    intros E. apply H. by rewrite E.
  - apply extract_ids_nonempty in H.
    apply extract_str_list_truthy in H. rewrite H. by rewrite orb_true_r.
Qed.

Lemma init_specific_requests_clear_flags_witness :
  ∃ self,
    __init__ true true true
      (Some "https://drive.google.com/drive/folders/F1") None None 10
    = Ok self
    ∧ _requested_shared_drive_ids self = {["F1"]}
    ∧ (include_files_shared_with_me self = false
       ∧ include_my_drives self = false
       ∧ include_shared_drives self = false).
Proof.
  eexists. split; [reflexivity|]. split; [vm_compute; reflexivity|].
  apply (init_specific_requests_clear_flags true true true
           (Some "https://drive.google.com/drive/folders/F1") None None 10).
  - reflexivity.
  - left. reflexivity.
Defined.

(** The ledger is created empty by the constructor. *)
Lemma init_retrieved_ids_empty
    (isd imd ifs : bool) (sdu mde sfu : option string) (bs : Z)
    (self : GoogleDriveConnector) :
  __init__ isd imd ifs sdu mde sfu bs = Ok self → _retrieved_ids self = ∅.
Proof.
  unfold __init__. destruct (_ && negb (opt_str_truthy sdu)); [done|].
  by intros [= <-].
Qed.

(* ----------------------------------------------------------------- *)
(** ** BatchAssembler *)

Section BatchAssembler.
Context (sch : Scheduler) (w : World) (k : Constants).
Context (self : GoogleDriveConnector).

Lemma batches_reraise {B} (c : crawl B) : batches (reraise k c) = batches c.
Proof. unfold reraise. by destruct (ending c). Qed.

Lemma length_omap_le {A B} (f : A → option B) (l : list A) :
  length (omap f l) ≤ length l.
Proof.
  induction l as [|a l IH]; [done|]. cbn. destruct (f a); cbn; lia.
Qed.

Lemma convert_files_batch_length admin files_batch :
  length (convert_files_batch sch w admin files_batch) ≤ length files_batch.
Proof.
  unfold convert_files_batch.
  etrans; [apply length_omap_le|].
  by rewrite (Permutation_length (as_completed_perm sch _ _)), length_fmap.
Qed.

(** Every document of a converted batch is the successful conversion of a
    file of that batch: a file whose conversion raised or returned [None]
    left nothing behind. *)
Lemma convert_files_batch_elem admin files_batch doc :
  doc ∈ convert_files_batch sch w admin files_batch ↔
  ∃ file, file ∈ files_batch
          ∧ _convert_single_file w admin file = Ok (Some doc).
Proof.
  unfold convert_files_batch. rewrite list_elem_of_omap. split.
  - intros (r & Hr & Hdoc).
    rewrite (as_completed_perm sch _ _) in Hr.
    apply list_elem_of_fmap in Hr as (f & -> & Hf).
    exists f. split; [done|].
    destruct (_convert_single_file w admin f) as [[d|]|]; naive_solver.
  - intros (f & Hf & Hc). exists (Ok (Some doc)). split; [|done].
    rewrite (as_completed_perm sch _ _). apply list_elem_of_fmap.
    by exists f.
Qed.

Lemma yield_if_any_Forall (P : list Document → Prop) documents :
  (documents ≠ [] → P documents) → Forall P (yield_if_any documents).
Proof.
  unfold yield_if_any. destruct documents; cbn; [constructor|].
  intros H. repeat constructor. by apply H.
Qed.

Lemma docs_loop_spec admin items files_batch :
  (Z.of_nat (length files_batch) < Z.max 1 (batch_size self))%Z →
  let '(bs, last) := docs_loop sch w self admin items files_batch in
  Forall (λ b, b ≠ [] ∧ (Z.of_nat (length b) ≤ Z.max 1 (batch_size self))%Z) bs
  ∧ (Z.of_nat (length last) < Z.max 1 (batch_size self))%Z.
Proof.
  revert files_batch.
  induction items as [|f items IH]; intros fb Hfb; cbn.
  { by split. }
  assert (length (fb ++ [f]) = S (length fb)) as Hlen
    by (rewrite length_app; cbn; lia).
  destruct (Z.leb_spec (batch_size self) (Z.of_nat (length (fb ++ [f]))))
    as [Hge|Hlt].
  - specialize (IH []). cbn in IH.
    destruct (docs_loop sch w self admin items []) as [later last].
    destruct IH as [IH1 IH2]; [lia|]. split; [|done].
    apply Forall_app. split; [|done].
    apply yield_if_any_Forall. intros Hne. split; [done|].
    pose proof (convert_files_batch_length admin (fb ++ [f])). lia.
  - apply IH. lia.
Qed.

Lemma docs_batches_spec win :
  Forall (λ b, b ≠ [] ∧ (Z.of_nat (length b) ≤ Z.max 1 (batch_size self))%Z)
    (batches (_extract_docs_from_google_drive sch w self win)).
Proof.
  unfold _extract_docs_from_google_drive.
  destruct (creds self); [|constructor].
  destruct (primary_admin_email self) as [admin|]; [|constructor].
  pose proof (docs_loop_spec admin
    (fst <$> yielded (_fetch_drive_items sch w self false win (enter self)))
    []) as Hloop.
  destruct (docs_loop _ _ _ _ _ _) as [bs fb].
  destruct Hloop as [Hbs Hfb]; [cbn; lia|].
  destruct (out _); cbn; [|done].
  apply Forall_app. split; [done|].
  destruct (nonempty fb); [|constructor].
  apply yield_if_any_Forall. intros Hne. split; [done|].
  pose proof (convert_files_batch_length admin fb). lia.
Qed.

(** The full-document operations never deliver an empty batch, and what
    they deliver holds only successfully converted items. *)
Lemma docs_loop_elem admin items files_batch :
  let '(bs, last) := docs_loop sch w self admin items files_batch in
  ∀ b doc, b ∈ bs → doc ∈ b →
    ∃ file, file ∈ files_batch ++ items
            ∧ _convert_single_file w admin file = Ok (Some doc).
Proof.
  revert files_batch. induction items as [|f items IH]; intros fb; cbn.
  { intros b doc Hb. by apply elem_of_nil in Hb. }
  destruct (_ <=? _)%Z.
  - specialize (IH []).
    destruct (docs_loop sch w self admin items []) as [later last].
    intros b doc [Hb|Hb]%elem_of_app Hdoc.
    + unfold yield_if_any in Hb. destruct (nonempty _); [|by inversion Hb].
      apply list_elem_of_singleton in Hb as ->.
      apply convert_files_batch_elem in Hdoc as (file & Hf & Hc).
      exists file. split; [|done]. set_solver.
    + destruct (IH b doc Hb Hdoc) as (file & Hf & Hc).
      exists file. split; [|done]. set_solver.
  - specialize (IH (fb ++ [f])).
    destruct (docs_loop sch w self admin items (fb ++ [f])) as [bs last].
    intros b doc Hb Hdoc. destruct (IH b doc Hb Hdoc) as (file & Hf & Hc).
    exists file. split; [|done]. by rewrite <- app_assoc in Hf.
Qed.

Lemma slim_loop_bound callback items slim_batch checks cur :
  (Z.of_nat (length slim_batch) < Z.max 1 (SLIM_BATCH_SIZE k))%Z →
  let '(bs, r, _) := slim_loop w k callback items slim_batch checks cur in
  Forall (λ b, (SLIM_BATCH_SIZE k ≤ Z.of_nat (length b)
                ≤ Z.max 1 (SLIM_BATCH_SIZE k))%Z) bs
  ∧ (∀ last, r = Ok last →
       (Z.of_nat (length last) < Z.max 1 (SLIM_BATCH_SIZE k))%Z).
Proof.
  revert slim_batch checks cur.
  induction items as [|[f s] items IH]; intros sb n cur Hsb; cbn.
  { split; [done|]. by intros last [= <-]. }
  set (sb' := match build_slim_document w f with
              | Some doc => sb ++ [doc] | None => sb end).
  assert (length sb ≤ length sb' ≤ S (length sb)) as Hlen.
  { subst sb'. destruct (build_slim_document w f); [|lia].
    rewrite length_app. cbn. lia. }
  destruct (Z.leb_spec (SLIM_BATCH_SIZE k) (Z.of_nat (length sb')))
    as [Hge|Hlt].
  - destruct (match callback with Some cb => _ | None => _ end).
    { split; [|done]. repeat constructor; lia. }
    match goal with |- context [slim_loop w k callback items [] ?c s] =>
      specialize (IH [] c s) end.
    destruct (slim_loop _ _ _ _ _ _ _) as [[later last] s'].
    destruct IH as [IH1 IH2]; [cbn; lia|]. split; [|done].
    constructor; [lia|done].
  - apply IH. lia.
Qed.

Lemma slim_batches_spec win callback :
  let c := _extract_slim_docs_from_google_drive sch w k self win callback in
  ∃ full last,
    batches c = full ++ last
    ∧ Forall (λ b, (SLIM_BATCH_SIZE k ≤ Z.of_nat (length b)
                    ≤ Z.max 1 (SLIM_BATCH_SIZE k))%Z) full
    ∧ Forall (λ b, (Z.of_nat (length b)
                    < Z.max 1 (SLIM_BATCH_SIZE k))%Z) last
    ∧ match ending c with
      | Ok _ => length last = 1
      | Raise _ => last = []
      end.
Proof.
  unfold _extract_slim_docs_from_google_drive.
  pose proof (slim_loop_bound callback
    (yielded (_fetch_drive_items sch w self true win (enter self)))
    [] 0 (enter self)) as Hloop.
  destruct (slim_loop _ _ _ _ _ _ _) as [[bs r] s].
  destruct Hloop as [Hbs Hlast]; [cbn; lia|].
  destruct r as [slim_batch|e].
  - destruct (out _); cbn.
    + exists bs, [slim_batch]. repeat split; [done|].
      repeat constructor. by apply Hlast.
    + exists bs, []. rewrite app_nil_r. by repeat split.
  - exists bs, []. rewrite app_nil_r. cbn. by repeat split.
Qed.

Lemma ending_reraise {B} (c : crawl B) :
  match ending c with
  | Ok u => ending (reraise k c) = Ok u
  | Raise _ => ∃ e, ending (reraise k c) = Raise e
  end.
Proof.
  unfold reraise. destruct (ending c) as [u|e] eqn:He; [done|]. cbn.
  destruct (str_contains _ _); by eexists.
Qed.

End BatchAssembler.

(** C8, as amended. Every batch of the full-document operations holds at
    most [batch_size] records and every batch of the lightweight operation
    at most [SLIM_BATCH_SIZE], a size below one counting as one. In the
    lightweight operation every batch holds at least [SLIM_BATCH_SIZE]
    records, except that a run which ends normally delivers one more batch
    at its end, and that batch holds fewer (none when the size is below
    one); a run that ends with the stop signal or another exception
    delivers no such batch. The full-document operations promise no lower
    bound, because records that fail conversion are dropped after the raw
    items were grouped. *)
Theorem batches_within_batch_size (sch : Scheduler) (w : World)
    (k : Constants) (self : GoogleDriveConnector) :
  Forall (λ b, (Z.of_nat (length b) ≤ Z.max 1 (batch_size self))%Z)
    (batches (load_from_state sch w k self))
  ∧ (∀ start end_,
       Forall (λ b, (Z.of_nat (length b) ≤ Z.max 1 (batch_size self))%Z)
         (batches (poll_source sch w k self start end_)))
  ∧ (∀ win callback,
       let c := retrieve_all_slim_documents sch w k self win callback in
       ∃ full last,
         batches c = full ++ last
         ∧ Forall (λ b, (SLIM_BATCH_SIZE k ≤ Z.of_nat (length b)
                         ≤ Z.max 1 (SLIM_BATCH_SIZE k))%Z) full
         ∧ Forall (λ b, (Z.of_nat (length b)
                         < Z.max 1 (SLIM_BATCH_SIZE k))%Z) last
         ∧ match ending c with
           | Ok _ => length last = 1
           | Raise _ => last = []
           end).
Proof.
  split; [|split].
  - unfold load_from_state. rewrite batches_reraise.
    eapply Forall_impl; [apply docs_batches_spec|]. by intros b [_ Hb].
  - intros start end_. unfold poll_source. rewrite batches_reraise.
    eapply Forall_impl; [apply docs_batches_spec|]. by intros b [_ Hb].
  - intros win callback c. subst c. unfold retrieve_all_slim_documents.
    rewrite batches_reraise.
    destruct (slim_batches_spec sch w k self win callback)
      as (full & last & Hb & Hfull & Hlast & Hend).
    exists full, last. repeat split; [done..|].
    pose proof (ending_reraise k
      (_extract_slim_docs_from_google_drive sch w k self win callback))
      as Hre.
    destruct (ending (_extract_slim_docs_from_google_drive _ _ _ _ _ _));
      [by rewrite Hre|]. destruct Hre as (e' & ->). done.
Qed.

(** C8 as stated fails: with a batch size of two and four items of which the
    first cannot be converted, the first of two batches holds one record. *)
Lemma load_from_state_short_batch_before_last :
  ∃ self,
    connector false true false None None 2 OAuthCredentials = Some self
    ∧ batch_size self = 2%Z
    ∧ batches (load_from_state fifo
                 (store (λ _, None) [] []
                    [file "f1"; file "f2"; file "f3"; file "f4"]
                    (λ _, []) (λ _, ([], [])) ["f1"])
                 (constants 500) self)
      = [[{| document_id := "f2" |}];
         [{| document_id := "f3" |}; {| document_id := "f4" |}]].
Proof. eexists. split; [reflexivity|]. split; vm_compute; reflexivity. Qed.

(** C5, at the input where the code departs from it: a lightweight crawl
    over a store without items delivers one batch, and it is empty. *)
Theorem retrieve_all_slim_documents_empty_batch :
  ∃ self,
    connector false true false None None 2 OAuthCredentials = Some self
    ∧ batches (retrieve_all_slim_documents fifo
                 (store (λ _, None) [] [] [] (λ _, []) (λ _, ([], [])) [])
                 (constants 500) self whole_window None)
      = [[]].
Proof. eexists. split; [reflexivity|]. vm_compute. reflexivity. Qed.

(** A batch of raw items with at least one successful conversion is
    delivered, without the items that failed. *)
Lemma converted_batch_is_delivered (sch : Scheduler) (w : World)
    (admin : string) (files_batch : list GoogleDriveFileType)
    (file : GoogleDriveFileType) (doc : Document) :
  file ∈ files_batch →
  _convert_single_file w admin file = Ok (Some doc) →
  yield_if_any (convert_files_batch sch w admin files_batch)
  = [convert_files_batch sch w admin files_batch].
Proof.
  intros Hf Hc.
  assert (doc ∈ convert_files_batch sch w admin files_batch) as Hdoc.
  { apply convert_files_batch_elem. by exists file. }
  unfold yield_if_any. destruct (convert_files_batch _ _ _ _); [|done].
  by apply elem_of_nil in Hdoc.
Qed.

(** The full-document operations, for comparison, never deliver an empty
    batch. *)
Lemma load_from_state_no_empty_batch (sch : Scheduler) (w : World)
    (k : Constants) (self : GoogleDriveConnector) :
  Forall (λ b, b ≠ []) (batches (load_from_state sch w k self)).
Proof.
  unfold load_from_state. rewrite batches_reraise.
  eapply Forall_impl; [apply docs_batches_spec|]. by intros b [Hb _].
Qed.

(* ----------------------------------------------------------------- *)
(** ** Cancellation of the lightweight crawl *)

Section Cancellation.
Context (sch : Scheduler) (w : World) (k : Constants).
Context (self : GoogleDriveConnector).

Lemma slim_loop_stop cb items slim_batch cur :
  should_stop cb 0 = true →
  (∃ b later r s s',
      slim_loop w k None items slim_batch 0 cur = (b :: later, r, s')
      ∧ (SLIM_BATCH_SIZE k ≤ Z.of_nat (length b))%Z
      ∧ slim_loop w k (Some cb) items slim_batch 0 cur
        = ([b], Raise stop_signal, s))
  ∨ (∃ r s,
      slim_loop w k None items slim_batch 0 cur = ([], r, s)
      ∧ slim_loop w k (Some cb) items slim_batch 0 cur = ([], r, s)).
Proof.
  intros Hstop. revert slim_batch cur.
  induction items as [|[f s] items IH]; intros sb cur; cbn.
  { right. by eexists _, _. }
  set (sb' := match build_slim_document w f with
              | Some doc => sb ++ [doc] | None => sb end).
  destruct (Z.leb_spec (SLIM_BATCH_SIZE k) (Z.of_nat (length sb')))
    as [Hge|Hlt]; [|apply IH].
  left. rewrite Hstop.
  destruct (slim_loop w k None items [] 0 s) as [[later r] s'].
  by eexists _, _, _, _, _.
Qed.

(** C6, as amended. When the callback answers "stop" the first time it is
    asked: if the item stream fills a first batch, that batch is the only
    one delivered and the run then ends by raising the stop-signal
    [RuntimeError], which [retrieve_all_slim_documents] hands on as an
    exception; if the stream never fills a batch, the callback is not
    asked and the run is the one without a callback, with at most one
    batch. *)
Theorem slim_stop_after_first_batch win cb :
  should_stop cb 0 = true →
  let stopped :=
    _extract_slim_docs_from_google_drive sch w k self win (Some cb) in
  let free := _extract_slim_docs_from_google_drive sch w k self win None in
  (∃ b later,
      batches free = b :: later
      ∧ (SLIM_BATCH_SIZE k ≤ Z.of_nat (length b))%Z
      ∧ batches stopped = [b]
      ∧ ending stopped = Raise stop_signal
      ∧ ∃ e, ending (retrieve_all_slim_documents sch w k self win (Some cb))
             = Raise e)
  ∨ (batches stopped = batches free
     ∧ ending stopped = ending free
     ∧ length (batches stopped) ≤ 1).
Proof.
  intros Hstop stopped free. subst stopped free.
  unfold retrieve_all_slim_documents, reraise,
    _extract_slim_docs_from_google_drive.
  set (r := _fetch_drive_items sch w self true win (enter self)).
  destruct (slim_loop_stop cb (yielded r) [] (enter self) Hstop)
    as [(b & later & res & s & s' & Hfree & Hfull & Hstopped)
       |(res & s & Hfree & Hstopped)];
    rewrite Hfree, Hstopped.
  - left. destruct res as [slim_batch|e]; [destruct (out r)|]; cbn.
    + eexists b, _. repeat split; try done. case_match; eauto.
    + eexists b, _. repeat split; try done. case_match; eauto.
    + eexists b, _. repeat split; try done. case_match; eauto.
  - right. destruct res as [slim_batch|e]; [destruct (out r)|]; cbn;
      repeat split; lia.
Qed.

End Cancellation.

Lemma slim_stop_after_first_batch_witness :
  should_stop {| should_stop := λ _, true |} 0 = true
  ∧ ∃ self,
      connector false true false None None 2 OAuthCredentials = Some self
      ∧ ending (_extract_slim_docs_from_google_drive fifo
                  (store (λ _, None) [] [] [file "f1"; file "f2"]
                     (λ _, []) (λ _, ([], [])) [])
                  (constants 1) self whole_window
                  (Some {| should_stop := λ _, true |}))
        = Raise stop_signal.
Proof.
  split; [reflexivity|]. eexists. split; [reflexivity|].
  match goal with
  | |- ending (_extract_slim_docs_from_google_drive _ ?w ?k ?self ?win
                 (Some ?cb)) = _ =>
      destruct (slim_stop_after_first_batch fifo w k self win cb eq_refl)
        as [(b & later & _ & _ & _ & Hend & _)|(_ & Hend & _)]
  end.
  - exact Hend.
  - vm_compute in Hend. discriminate Hend.
Defined.

(** C6 as stated fails: with batches of one record, two items and a
    callback that signals stop, one batch is delivered and the run ends
    with an exception instead of ending normally. *)
Lemma retrieve_all_slim_documents_stop_raises :
  ∃ self,
    connector false true false None None 2 OAuthCredentials = Some self
    ∧ let c := retrieve_all_slim_documents fifo
                 (store (λ _, None) [] [] [file "f1"; file "f2"]
                    (λ _, []) (λ _, ([], [])) [])
                 (constants 1) self whole_window
                 (Some {| should_stop := λ _, true |}) in
      batches c = [[{| slim_id := "f1" |}]]
      ∧ ending c = Raise stop_signal
      ∧ ending c ≠ Ok tt.
Proof.
  eexists. split; [reflexivity|]. vm_compute. repeat split. discriminate.
Qed.

(* ----------------------------------------------------------------- *)
(** ** Reasoning about generators *)

Lemma sat_at_seq {A B} (R1 Y1 R2 Y2 R3 Y3 : st → st → Prop)
    (m : Gen A) (k : A → Gen B) s :
  (∀ a b, R1 a b → R3 a b) →
  (∀ a b, Y1 a b → Y3 a b) →
  (∀ a b c, R1 a b → R2 b c → R3 a c) →
  (∀ a b c, R1 a b → Y2 b c → Y3 a c) →
  sat_at R1 Y1 m s →
  (∀ a, out (m s) = Ok a → sat_at R2 Y2 (k a) (final (m s))) →
  sat_at R3 Y3 (bind m k) s.
Proof.
  intros HR HY HRR HRY [Hm Hy] Hk. unfold sat_at, bind.
  destruct (out (m s)) as [a|e]; cbn.
  - destruct (Hk a eq_refl) as [Hk1 Hk2]. split; [by eapply HRR|].
    apply Forall_app. split.
    + eapply Forall_impl; [exact Hy|]. intros p Hp. by apply HY.
    + eapply Forall_impl; [exact Hk2|]. intros p Hp. by eapply HRY.
  - split; [by apply HR|].
    eapply Forall_impl; [exact Hy|]. intros p Hp. by apply HY.
Qed.

(* ----------------------------------------------------------------- *)
(** ** Recursion over folders *)

Lemma folder_ind_all (P : folder → Prop) :
  (∀ id files subfolders, Forall P subfolders → P (Folder id files subfolders)) →
  ∀ t, P t.
Proof.
  intros H. fix IH 1. intros [id files subfolders]. apply H.
  induction subfolders as [|c l IHl]; constructor; [apply IH | exact IHl].
Qed.

Lemma crawl_tree_unfold user id files subfolders :
  crawl_tree user (Folder id files subfolders)
  = (let* traversed_parent_ids := retrieved_ids in
     _update_traversed_parent_ids id >>
     emit (EvFolder user id (bool_decide (id ∈ traversed_parent_ids))) >>
     yield_from files >>
     for_each subfolders (crawl_child user)).
Proof. reflexivity. Qed.

Lemma for_each_cons {A} (x : A) (l : list A) (body : A → Gen unit) :
  for_each (x :: l) body = bind (body x) (λ _, for_each l body).
Proof. reflexivity. Qed.

Section RetrievalRules.
Context (sch : Scheduler) (w : World) (self : GoogleDriveConnector).

Lemma set_iter_NoDup (ids : gset string) : NoDup (set_iter sch ids).
Proof. rewrite (set_iter_perm sch ids). apply NoDup_elements. Qed.

Lemma set_iter_elem (ids : gset string) x : x ∈ set_iter sch ids ↔ x ∈ ids.
Proof. rewrite (set_iter_perm sch ids). apply elem_of_elements. Qed.

End RetrievalRules.

(* ----------------------------------------------------------------- *)
(** ** The ledger only grows *)

Lemma ascending_alt {A} (m : Gen A) s :
  ascending m s ↔
  led s ⊆ led (final (m s))
  ∧ Forall (λ p, led s ⊆ led p ∧ led p ⊆ led (final (m s))) (yielded (m s)).*2
  ∧ StronglySorted ledger_grows (yielded (m s)).*2.
Proof.
  unfold ascending, trajectory.
  rewrite StronglySorted_cons, StronglySorted_app, Forall_app, !Forall_forall.
  unfold ledger_grows. split.
  - intros ((Hy & Hf) & Hyf & Hs & _). split; [apply Hf; by left|].
    split; [|done]. intros p Hp. split; [by apply Hy|].
    apply (Hyf p _ Hp). by left.
  - intros (Hf & Hy & Hs).
    split; [split|split; [|split]].
    + intros p Hp. by apply Hy.
    + by intros p ->%list_elem_of_singleton.
    + intros p q Hp ->%list_elem_of_singleton. by apply Hy.
    + done.
    + repeat constructor.
Qed.

Lemma sorted_constant (l : list st) s :
  Forall (λ p, p = s) l → StronglySorted ledger_grows l.
Proof.
  induction 1 as [|p l -> H IH]; constructor; [done|].
  eapply Forall_impl; [exact H|]. intros q ->. by unfold ledger_grows.
Qed.

Lemma asc_still {A} (m : Gen A) s :
  final (m s) = s → Forall (λ p, p.2 = s) (yielded (m s)) → ascending m s.
Proof.
  intros Hf Hy. apply ascending_alt. rewrite Hf. split; [done|].
  assert (Forall (λ p, p = s) (yielded (m s)).*2) as Hy'.
  { by apply Forall_fmap. }
  split.
  - eapply Forall_impl; [exact Hy'|]. by intros p ->.
  - by eapply sorted_constant.
Qed.

Lemma asc_ret {A} (a : A) s : ascending (ret a) s.
Proof. by apply asc_still. Qed.

Lemma asc_raise {A} e s : ascending (raise (A:=A) e) s.
Proof. by apply asc_still. Qed.

Lemma asc_lift {A} (r : result A) s : ascending (lift r) s.
Proof. destruct r; [apply asc_ret | apply asc_raise]. Qed.

Lemma asc_retrieved_ids s : ascending retrieved_ids s.
Proof. by apply asc_still. Qed.

Lemma asc_yield_from l s : ascending (yield_from l) s.
Proof.
  apply asc_still; [done|]. cbn. apply Forall_fmap, Forall_forall.
  by intros f _.
Qed.

Lemma asc_emit e s : ascending (emit e) s.
Proof. apply ascending_alt. cbn. split; [done|]. split; constructor. Qed.

Lemma asc_mark id s : ascending (_update_traversed_parent_ids id) s.
Proof.
  apply ascending_alt. cbn. split; [set_solver|]. split; constructor.
Qed.

Lemma asc_bind {A B} (m : Gen A) (k : A → Gen B) s :
  ascending m s →
  (∀ a, out (m s) = Ok a → ascending (k a) (final (m s))) →
  ascending (bind m k) s.
Proof.
  rewrite !ascending_alt. intros (Hf & Hy & Hs) Hk. unfold bind.
  destruct (out (m s)) as [a|e]; cbn; [|done].
  specialize (Hk a eq_refl). apply ascending_alt in Hk as (Hf' & Hy' & Hs').
  rewrite fmap_app. split; [set_solver|]. split.
  - apply Forall_app. split.
    + eapply Forall_impl; [exact Hy|]. intros p [??]. set_solver.
    + eapply Forall_impl; [exact Hy'|]. intros p [??]. set_solver.
  - apply StronglySorted_app_2; [|done..].
    intros p q Hp Hq. rewrite Forall_forall in Hy, Hy'.
    unfold ledger_grows. destruct (Hy p Hp), (Hy' q Hq). set_solver.
Qed.

Lemma asc_for_each {A} (l : list A) (body : A → Gen unit) s :
  (∀ x s', ascending (body x) s') → ascending (for_each l body) s.
Proof.
  intros Hbody. revert s. induction l as [|x l IH]; intros s.
  { apply asc_ret. }
  rewrite for_each_cons. apply asc_bind; [apply Hbody|]. intros _ _. apply IH.
Qed.

Ltac ascend :=
  repeat first
    [ apply asc_ret | apply asc_raise | apply asc_lift
    | apply asc_retrieved_ids | apply asc_yield_from | apply asc_emit
    | apply asc_mark | assumption
    | apply asc_bind; [|intros ? _]
    | apply asc_for_each; intros ? ?
    | match goal with
      | |- ascending (if ?b then _ else _) _ => destruct b
      | |- ascending (match ?x with _ => _ end) _ => destruct x
      | |- ascending (let '(_, _) := ?x in _) _ => destruct x
      end ].

Lemma asc_crawl_tree user t : ∀ s, ascending (crawl_tree user t) s.
Proof.
  induction t as [id files subfolders IH] using folder_ind_all. intros s.
  rewrite crawl_tree_unfold. rewrite Forall_forall in IH.
  apply asc_bind; [ascend|]. intros L _.
  apply asc_bind; [ascend|]. intros _ _.
  apply asc_bind; [ascend|]. intros _ _.
  apply asc_bind; [ascend|]. intros _ _.
  generalize (final (yield_from files
    (final (emit (EvFolder user id (bool_decide (id ∈ L)))
       (final (_update_traversed_parent_ids id (final (retrieved_ids s)))))))).
  revert IH. induction subfolders as [|c l IHl]; intros IH s'; [ascend|].
  rewrite for_each_cons. apply asc_bind.
  - unfold crawl_child. apply asc_bind; [ascend|]. intros L' _.
    destruct (bool_decide _); [ascend|]. apply IH. by left.
  - intros _ _. apply IHl. intros c' Hc'. apply IH. by right.
Qed.

Lemma asc_fetch_drive_items sch w self is_slim win s :
  ascending (_fetch_drive_items sch w self is_slim win) s.
Proof.
  pose proof asc_crawl_tree as Hcrawl.
  unfold _fetch_drive_items, _manage_service_account_retrieval,
    _manage_oauth_retrieval, _impersonate_user_for_retrieval,
    _get_all_user_emails, get_all_drive_ids, get_all_files_for_oauth,
    get_all_files_in_my_drive, get_files_in_shared_drive,
    crawl_folders_for_files.
  ascend; apply Hcrawl.
Qed.

(* ----------------------------------------------------------------- *)
(** ** The states an operation passes through *)

Section Operations.
Context (sch : Scheduler) (w : World) (k : Constants).

Lemma calls_reraise {B} (c : crawl B) : calls (reraise k c) = calls c.
Proof. unfold reraise. by destruct (ending c). Qed.

Lemma self_after_reraise {B} (c : crawl B) :
  self_after (reraise k c) = self_after c.
Proof. unfold reraise. by destruct (ending c). Qed.

Lemma slim_loop_state callback items slim_batch checks cur bs e s :
  slim_loop w k callback items slim_batch checks cur = (bs, Raise e, s) →
  s ∈ items.*2.
Proof.
  revert slim_batch checks cur bs.
  induction items as [|[f s0] items IH]; intros sb n cur bs; cbn; [done|].
  destruct (_ <=? _)%Z.
  - destruct (match callback with Some cb => _ | None => _ end).
    { intros [= <- <- <-]. by left. }
    destruct (slim_loop _ _ _ _ _ _ _) as [[later last] s'] eqn:Hloop.
    intros [= <- -> ->]. right. by eapply IH.
  - intros Hloop. right. by eapply IH.
Qed.

(** Every operation leaves the connector in a state its item generator
    passes through. *)
Lemma invoke_state op self :
  ∃ p is_slim win,
    invoke sch w k op self = (log p, with_retrieved_ids self (led p))
    ∧ (p = enter self
       ∨ p = final (_fetch_drive_items sch w self is_slim win (enter self))
       ∨ p ∈ (yielded (_fetch_drive_items sch w self is_slim win
                         (enter self))).*2).
Proof.
  assert (∀ win, ∃ p,
    (calls (_extract_docs_from_google_drive sch w self win),
     self_after (_extract_docs_from_google_drive sch w self win))
    = (log p, with_retrieved_ids self (led p))
    ∧ (p = enter self
       ∨ p = final (_fetch_drive_items sch w self false win (enter self))
       ∨ p ∈ (yielded (_fetch_drive_items sch w self false win
                         (enter self))).*2)) as Hdocs.
  { intros win. unfold _extract_docs_from_google_drive.
    destruct (creds self); [|eexists; split; [done|by left]].
    destruct (primary_admin_email self);
      [|eexists; split; [done|by left]].
    destruct (docs_loop _ _ _ _ _ _) as [bs fb].
    destruct (out _); eexists; (split; [done|right; by left]). }
  destruct op as [|start end_|win callback]; cbn.
  - unfold load_from_state. rewrite calls_reraise, self_after_reraise.
    destruct (Hdocs {| start := None; end_ := None |}) as (p & Hp & Hr).
    by exists p, false, {| start := None; end_ := None |}.
  - unfold poll_source. rewrite calls_reraise, self_after_reraise.
    destruct (Hdocs {| start := Some start; end_ := Some end_ |})
      as (p & Hp & Hr).
    by exists p, false, {| start := Some start; end_ := Some end_ |}.
  - unfold retrieve_all_slim_documents.
    rewrite calls_reraise, self_after_reraise.
    unfold _extract_slim_docs_from_google_drive.
    destruct (slim_loop _ _ _ _ _ _ _) as [[bs [last|e]] s] eqn:Hloop.
    + destruct (out _); eexists _, true, win;
        (split; [done|right; by left]).
    + apply slim_loop_state in Hloop.
      exists s, true, win. split; [done|]. by right; right.
Qed.

Lemma invoke_grows op self :
  ∃ ids,
    (invoke sch w k op self).2 = with_retrieved_ids self ids
    ∧ _retrieved_ids self ⊆ ids.
Proof.
  destruct (invoke_state op self) as (p & is_slim & win & -> & Hp).
  exists (led p). split; [done|].
  pose proof (asc_fetch_drive_items sch w self is_slim win (enter self))
    as (Hfin & Hy & _)%ascending_alt.
  rewrite Forall_forall in Hy.
  destruct Hp as [->|[->|Hp]]; [done|done|]. by apply Hy.
Qed.

End Operations.

Example configured_by_init :
  connector false false false
    (Some "https://drive.google.com/drive/folders/D1") None 2
    ServiceAccountCredentials
  = Some (configured false false false {["D1"]} ∅ 2 ServiceAccountCredentials)
  ∧ connector true true true None None 2 OAuthCredentials
    = Some (configured true true true ∅ ∅ 2 OAuthCredentials)
  ∧ connector true false false None None 2 OAuthCredentials
    = Some (configured true false false ∅ ∅ 2 OAuthCredentials).
Proof. repeat split; vm_compute; reflexivity. Qed.

(** The scenario of the specification: D1 is listed once, as admin@x.org,
    its two items arrive in one batch, and nothing is raised. *)
Example roster_scenario :
  let c := load_from_state fifo roster_store (constants 500)
             (configured false false false {["D1"]} ∅ 2
                ServiceAccountCredentials) in
  batches c = [[{| document_id := "a" |}; {| document_id := "b" |}]]
  ∧ ending c = Ok tt
  ∧ calls c = [EvUsersList true; EvUsersList false; EvDrivesList;
               EvProbe "admin@x.org";
               EvSharedDrive "admin@x.org" "D1" false;
               EvProbe "user@x.org"]
  ∧ _retrieved_ids (self_after c) = {["D1"]}.
Proof. vm_compute. repeat split. Qed.

(* ----------------------------------------------------------------- *)
(** ** The access probe *)

Lemma out_bind {A B} (m : Gen A) (k : A → Gen B) s :
  out (bind m k s)
  = match out (m s) with
    | Ok a => out (k a (final (m s)))
    | Raise e => Raise e
    end.
Proof. unfold bind. by destruct (out (m s)). Qed.

Lemma out_for_each_ok {A} (l : list A) (body : A → Gen unit) s :
  (∀ x s', x ∈ l → out (body x s') = Ok tt) → out (for_each l body s) = Ok tt.
Proof.
  revert s. induction l as [|x l IH]; intros s Hbody; [done|].
  rewrite for_each_cons, out_bind, Hbody; [|by left].
  apply IH. intros y s' Hy. apply Hbody. by right.
Qed.

Section AccessProbe.
Context (sch : Scheduler) (w : World) (self : GoogleDriveConnector).

Lemma out_my_drive user is_slim win s :
  out (get_all_files_in_my_drive w user is_slim win s) = Ok tt.
Proof.
  unfold get_all_files_in_my_drive. rewrite !out_bind. cbn.
  by rewrite out_for_each_ok.
Qed.

Lemma out_crawl_tree user t : ∀ s, out (crawl_tree user t s) = Ok tt.
Proof.
  induction t as [id files subfolders IH] using folder_ind_all. intros s.
  rewrite crawl_tree_unfold, !out_bind. cbn. apply out_for_each_ok.
  intros c s' Hc. unfold crawl_child. rewrite out_bind.
  cbn [out final retrieved_ids]. case_bool_decide; [done|].
  rewrite Forall_forall in IH. by apply IH.
Qed.

Lemma out_crawl_folders_for_files user parent_id win s :
  out (crawl_folders_for_files w user parent_id win s) = Ok tt.
Proof.
  unfold crawl_folders_for_files. rewrite out_bind.
  cbn [out final emit].
  destruct (folder_listing w user parent_id win). apply out_crawl_tree.
Qed.

Lemma impersonate_unauthorized user is_slim drives folders win s c :
  _creds self = Some c →
  get_root_folder_id w user ≠ None →
  probe_raises w user = None →
  _impersonate_user_for_retrieval sch w self user is_slim drives folders
    win s
  = {| yielded := [];
       final := {| led := led s; log := log s ++ [EvProbe user] |};
       out := Ok tt |}.
Proof.
  intros Hc Hsome Hnone.
  unfold _impersonate_user_for_retrieval, probe_raises, creds in *.
  rewrite Hc. destruct (get_root_folder_id w user) as [e|]; [|done].
  destruct e; try done. unfold bind. cbn.
  by destruct (_ =? _)%Z.
Qed.

Lemma impersonate_raises user is_slim drives folders win s c e :
  _creds self = Some c →
  probe_raises w user = Some e →
  _impersonate_user_for_retrieval sch w self user is_slim drives folders
    win s
  = {| yielded := [];
       final := {| led := led s; log := log s ++ [EvProbe user] |};
       out := Raise e |}.
Proof.
  intros Hc Hsome.
  unfold _impersonate_user_for_retrieval, probe_raises, creds in *.
  rewrite Hc. destruct (get_root_folder_id w user) as [e'|]; [|done].
  unfold bind. cbn.
  destruct e'; try (by injection Hsome as <-).
  destruct (_ =? _)%Z; [done|]. by injection Hsome as <-.
Qed.

Lemma out_impersonate user is_slim drives folders win s c :
  _creds self = Some c →
  out (_impersonate_user_for_retrieval sch w self user is_slim drives
         folders win s)
  = match probe_raises w user with Some e => Raise e | None => Ok tt end.
Proof.
  intros Hc. destruct (probe_raises w user) as [e|] eqn:Hp.
  { by erewrite impersonate_raises. }
  destruct (get_root_folder_id w user) as [e|] eqn:Hr.
  { erewrite impersonate_unauthorized; [done..| |done]. by rewrite Hr. }
  unfold _impersonate_user_for_retrieval, creds. rewrite Hc, Hr.
  rewrite !out_bind. cbn.
  assert (∀ s', out ((if include_my_drives self
                         || bool_decide
                              (user ∈ _requested_my_drive_emails self)
                      then get_all_files_in_my_drive w user is_slim win
                      else ret tt) s') = Ok tt) as ->.
  { intros s'. destruct (_ || _); [apply out_my_drive | done]. }
  rewrite out_bind, out_for_each_ok by done.
  rewrite ?out_bind. cbn [out final retrieved_ids].
  apply out_for_each_ok.
  intros f s' _. apply out_crawl_folders_for_files.
Qed.

Lemma out_principal_loop is_slim drives folders win emails s c :
  _creds self = Some c →
  out (for_each emails
         (λ email,
            _impersonate_user_for_retrieval sch w self email is_slim
              drives folders win) s)
  = first_raise w emails.
Proof.
  intros Hc. unfold first_raise. revert s.
  induction emails as [|u l IH]; intros s; [done|].
  rewrite for_each_cons, out_bind, (out_impersonate _ _ _ _ _ _ c Hc).
  cbn. destruct (probe_raises w u); [done|]. apply IH.
Qed.

(** C3. With credentials loaded: a principal whose access probe fails
    with HTTP 401 yields nothing, leaves the ledger as it was and ends
    without raising, and the loop over the principals goes on with the
    remaining ones; a probe that fails in any other way ends the
    principal's retrieval with that exception, and the retrieval over all
    principals ends with the exception of the first such principal in
    completion order, or without one when there is none. *)
Theorem probe_unauthorized_is_swallowed is_slim win s admin :
  _creds self = Some ServiceAccountCredentials →
  _primary_admin_email self = Some admin →
  let retrieve drives folders email :=
    _impersonate_user_for_retrieval sch w self email is_slim drives
      folders win in
  let probed user := {| led := led s; log := log s ++ [EvProbe user] |} in
  (∀ user msg drives folders,
      get_root_folder_id w user = Some (HttpError 401 msg) →
      retrieve drives folders user s
      = {| yielded := []; final := probed user; out := Ok tt |}
      ∧ ∀ rest,
          for_each (user :: rest) (retrieve drives folders) s
          = for_each rest (retrieve drives folders) (probed user))
  ∧ (∀ user e drives folders,
      get_root_folder_id w user = Some e →
      (∀ msg, e ≠ HttpError 401 msg) →
      retrieve drives folders user s
      = {| yielded := []; final := probed user; out := Raise e |}
      ∧ ∀ rest,
          for_each (user :: rest) (retrieve drives folders) s
          = {| yielded := []; final := probed user; out := Raise e |})
  ∧ out (_manage_service_account_retrieval sch w self is_slim win s)
    = first_raise w
        (as_completed sch string
           (append_new_emails (users_list w false)
              (append_new_emails (users_list w true) [admin]))).
Proof.
  intros Hc Ha retrieve probed. split; [|split].
  - intros user msg drives folders Hp.
    assert (retrieve drives folders user s
            = {| yielded := []; final := probed user; out := Ok tt |}) as Hr.
    { apply (impersonate_unauthorized _ _ _ _ _ _ _ Hc).
      - by rewrite Hp.
      - unfold probe_raises. by rewrite Hp. }
    split; [done|]. intros rest. rewrite for_each_cons. unfold bind.
    rewrite Hr. cbn. by destruct (for_each rest _ _).
  - intros user e drives folders Hp Hne.
    assert (retrieve drives folders user s
            = {| yielded := []; final := probed user; out := Raise e |})
      as Hr.
    { apply (impersonate_raises _ _ _ _ _ _ _ _ Hc).
      unfold probe_raises. rewrite Hp. destruct e; try done.
      destruct (Z.eqb_spec status_code 401) as [->|]; [|done].
      by destruct (Hne msg). }
    split; [done|]. intros rest. rewrite for_each_cons. unfold bind.
    by rewrite Hr.
  - unfold _manage_service_account_retrieval, _get_all_user_emails,
      get_all_drive_ids, creds, primary_admin_email.
    rewrite Hc, Ha. rewrite !out_bind. cbn.
    destruct (ids_to_retrieve self _) as [drives folders].
    by apply out_principal_loop with (c := ServiceAccountCredentials).
Qed.

End AccessProbe.

Lemma probe_unauthorized_is_swallowed_witness :
  let self :=
    configured false false false {["D1"]} ∅ 2 ServiceAccountCredentials in
  yielded (_impersonate_user_for_retrieval fifo roster_store self
             "user@x.org" false {["D1"]} ∅ whole_window (enter self)) = []
  ∧ out (_manage_service_account_retrieval fifo roster_store self false
           whole_window (enter self)) = Ok tt.
Proof.
  intros self.
  destruct (probe_unauthorized_is_swallowed fifo roster_store self false
              whole_window (enter self) "admin@x.org" eq_refl eq_refl)
    as (Hskip & _ & Hout).
  split.
  - destruct (Hskip "user@x.org" "unauthorized" {["D1"]} ∅ eq_refl)
      as [-> _].
    reflexivity.
  - rewrite Hout. vm_compute. reflexivity.
Defined.

(** A probe answered with 500 ends the whole operation with that error
    after the items of the principal retrieved before it. *)
Example failing_probe_scenario :
  let c := load_from_state fifo failing_store (constants 500)
             (configured false false false {["D1"]} ∅ 2
                ServiceAccountCredentials) in
  batches c = [[{| document_id := "a" |}; {| document_id := "b" |}]]
  ∧ ending c = Raise (HttpError 500 "backend error").
Proof. vm_compute. repeat split. Qed.

(* ----------------------------------------------------------------- *)
(** ** Delegated access with all three coarse flags *)

Section CombinedRetrieval.
Context (sch : Scheduler) (w : World) (k : Constants).
Context (self : GoogleDriveConnector) (admin : string).
Context (Hcreds : _creds self = Some OAuthCredentials).
Context (Hadmin : _primary_admin_email self = Some admin).
Context (Hshared : include_files_shared_with_me self = true).
Context (Hmy : include_my_drives self = true).
Context (Hdrives : include_shared_drives self = true).

Lemma fetch_drive_items_all_requested is_slim win s :
  let s' := {| led := led s;
               log := log s ++ [EvOAuthFiles true true true] |} in
  _fetch_drive_items sch w self is_slim win s
  = {| yielded :=
         (λ f, (f, s')) <$> files_for_oauth w admin true true true is_slim win;
       final := s';
       out := Ok tt |}.
Proof.
  unfold _fetch_drive_items, _manage_oauth_retrieval, creds,
    primary_admin_email.
  rewrite Hcreds, Hadmin, Hshared, Hmy, Hdrives. unfold bind. cbn.
  by rewrite !app_nil_r.
Qed.

Lemma docs_all_requested win :
  calls (_extract_docs_from_google_drive sch w self win)
  = [EvOAuthFiles true true true].
Proof.
  unfold _extract_docs_from_google_drive, creds, primary_admin_email.
  rewrite Hcreds, Hadmin, fetch_drive_items_all_requested.
  cbn [yielded out final]. by destruct (docs_loop _ _ _ _ _ _).
Qed.

Lemma slim_all_requested win callback :
  calls (_extract_slim_docs_from_google_drive sch w k self win callback)
  = [EvOAuthFiles true true true].
Proof.
  unfold _extract_slim_docs_from_google_drive.
  rewrite fetch_drive_items_all_requested. cbn [yielded out final].
  destruct (slim_loop _ _ _ _ _ _ _) as [[bs [last|e]] s] eqn:Hloop; [done|].
  apply slim_loop_state in Hloop.
  apply list_elem_of_fmap in Hloop as ([f s'] & -> & Hs).
  by apply list_elem_of_fmap in Hs as (f' & [= _ ->] & _).
Qed.

(** C4. With delegated (OAuth) credentials and all three coarse flags set,
    the item generator makes the combined retrieval call and no other
    call, yields what that call returns and ends; so does every crawl
    operation. *)
Theorem oauth_all_flags_single_call :
  (∀ is_slim win s,
      let r := _fetch_drive_items sch w self is_slim win s in
      log (final r) = log s ++ [EvOAuthFiles true true true]
      ∧ (yielded r).*1 = files_for_oauth w admin true true true is_slim win
      ∧ out r = Ok tt)
  ∧ ∀ op, (invoke sch w k op self).1 = [EvOAuthFiles true true true].
Proof.
  split.
  - intros is_slim win s. rewrite fetch_drive_items_all_requested. cbn.
    split; [done|]. split; [|done].
    rewrite <- list_fmap_compose. apply list_fmap_id.
  - intros [|start end_|win callback]; cbn.
    + unfold load_from_state. rewrite calls_reraise. apply docs_all_requested.
    + unfold poll_source. rewrite calls_reraise. apply docs_all_requested.
    + unfold retrieve_all_slim_documents. rewrite calls_reraise.
      apply slim_all_requested.
Qed.

End CombinedRetrieval.

Lemma oauth_all_flags_single_call_witness :
  (invoke fifo roster_store (constants 500) LoadFromState
     (configured true true true ∅ ∅ 2 OAuthCredentials)).1
  = [EvOAuthFiles true true true].
Proof.
  apply (oauth_all_flags_single_call fifo roster_store (constants 500)
           (configured true true true ∅ ∅ 2 OAuthCredentials) "admin@x.org");
    reflexivity.
Defined.

(* ----------------------------------------------------------------- *)
(** ** The ledger across invocations *)

Section CarryOver.
Context (sch : Scheduler) (w : World) (k : Constants).

Lemma with_retrieved_ids_id self :
  with_retrieved_ids self (_retrieved_ids self) = self.
Proof. by destruct self. Qed.

Lemma invoke_all_grows ops self :
  ∃ ids, invoke_all sch w k ops self = with_retrieved_ids self ids
         ∧ _retrieved_ids self ⊆ ids.
Proof.
  revert self. induction ops as [|op ops IH]; intros self.
  { exists (_retrieved_ids self). by rewrite with_retrieved_ids_id. }
  change (invoke_all sch w k (op :: ops) self)
    with (invoke_all sch w k ops (invoke sch w k op self).2).
  destruct (invoke_grows sch w k op self) as (ids1 & -> & Hsub).
  destruct (IH (with_retrieved_ids self ids1)) as (ids & -> & Hids).
  exists ids. split; [done|]. cbn in Hids. set_solver.
Qed.

(** X18. The visited set only grows. [_update_traversed_parent_ids] adds
    an ID and removes none; along the run of the item generator the set of
    every state it is observed in (where it starts, at each [yield], where
    it ends) is contained in the set of every later one; an operation
    changes no field of the connector but the set and leaves a superset of
    the set it found, so that over any sequence of operations on one
    connector the set carries over and never loses an ID. *)
Theorem visited_set_only_grows (self : GoogleDriveConnector) :
  (∀ id s, led (final (_update_traversed_parent_ids id s)) = {[id]} ∪ led s)
  ∧ (∀ is_slim win,
       ascending (_fetch_drive_items sch w self is_slim win) (enter self))
  ∧ (∀ ops op,
       let before := invoke_all sch w k ops self in
       let after := (invoke sch w k op before).2 in
       before = with_retrieved_ids self (_retrieved_ids before)
       ∧ after = with_retrieved_ids self (_retrieved_ids after)
       ∧ _retrieved_ids self ⊆ _retrieved_ids before
       ∧ _retrieved_ids before ⊆ _retrieved_ids after).
Proof.
  split; [done|]. split; [intros; apply asc_fetch_drive_items|].
  intros ops op before after. subst after.
  destruct (invoke_all_grows ops self) as (ids & Hbefore & Hids).
  fold before in Hbefore.
  destruct (invoke_grows sch w k op before) as (ids' & -> & Hids').
  rewrite Hbefore in Hids' |- *. cbn in Hids' |- *. by repeat split.
Qed.

End CarryOver.


(** The folder loops subtract the visited set once, before they start
    (lines 358 and 489). With the crawl as the specification describes it,
    which tests the sub-folders it meets and not the folder it is started
    from, this does not cover a requested folder that lies below another
    requested folder: F2 is listed below F1 and then once more, although it
    is in the set by then, and its item is delivered twice. *)
Example nested_requested_folder_crawled_again :
  let world :=
    store (λ _, None) [] [] [] (λ _, [])
      (λ id,
         if bool_decide (id = "F1")
         then ([file "a"], [Folder "F2" [file "b"] []])
         else if bool_decide (id = "F2") then ([file "b"], []) else ([], []))
      [] in
  let c :=
    load_from_state fifo world (constants 500)
      (configured false false false ∅ {["F1"; "F2"]} 10
         ServiceAccountCredentials) in
  calls c
  = [EvUsersList true; EvUsersList false; EvDrivesList;
     EvProbe "admin@x.org";
     EvCrawl "admin@x.org" "F1"; EvFolder "admin@x.org" "F1" false;
     EvFolder "admin@x.org" "F2" false;
     EvCrawl "admin@x.org" "F2"; EvFolder "admin@x.org" "F2" true]
  ∧ batches c
    = [[{| document_id := "a" |}; {| document_id := "b" |};
        {| document_id := "b" |}]].
Proof. vm_compute. by split. Qed.



(* ----------------------------------------------------------------- *)
(** ** Splitting and stripping *)

Lemma py_split_nonempty sep s : py_split sep s ≠ [].
Proof.
  destruct s as [|c s]; cbn -[Ascii.eqb]; [done|].
  destruct (Ascii.eqb c sep); [done|]. by destruct (py_split sep s).
Qed.

Lemma py_split_app sep a b :
  py_split sep (a +:+ String sep b) = py_split sep a ++ py_split sep b.
Proof.
  induction a as [|c a IH].
  { change (py_split sep (String sep b) = [EmptyString] ++ py_split sep b).
    cbn -[Ascii.eqb]. by rewrite Ascii.eqb_refl. }
  change (py_split sep (String c (a +:+ String sep b))
          = py_split sep (String c a) ++ py_split sep b).
  cbn -[Ascii.eqb].
  destruct (Ascii.eqb c sep); [by rewrite IH|].
  rewrite IH. pose proof (py_split_nonempty sep a).
  by destruct (py_split sep a).
Qed.

Lemma py_split_free sep s : sep ∉ chars s → py_split sep s = [s].
Proof.
  induction s as [|c s IH]; cbn -[Ascii.eqb]; [done|]. intros Hfree.
  destruct (Ascii.eqb_spec c sep) as [->|Hne]; [destruct Hfree; by left|].
  rewrite IH; [done|]. intros Hs. apply Hfree. by right.
Qed.

Lemma py_split_pieces_free sep s w : w ∈ py_split sep s → sep ∉ chars w.
Proof.
  revert w. induction s as [|c s IH]; cbn -[Ascii.eqb]; intros w Hw.
  { apply list_elem_of_singleton in Hw as ->. by intros ?%elem_of_nil. }
  destruct (Ascii.eqb_spec c sep) as [->|Hne].
  - apply elem_of_cons in Hw as [->|Hw]; [by intros ?%elem_of_nil | by apply IH].
  - pose proof (py_split_nonempty sep s).
    destruct (py_split sep s) as [|v vs]; [done|].
    apply elem_of_cons in Hw as [->|Hw].
    + cbn. intros [->|Hc]%elem_of_cons; [done|]. revert Hc. apply IH. by left.
    + apply IH. by right.
Qed.

Lemma last_default_app {A} (l1 : list A) w ws d :
  List.last (l1 ++ w :: ws) d = List.last (w :: ws) d.
Proof.
  induction l1 as [|x l1 IH]; [done|].
  cbn [app]. rewrite <- IH. cbn. by destruct (l1 ++ w :: ws) eqn:E;
    [destruct l1; discriminate E|].
Qed.

Lemma last_py_split_app sep a b :
  List.last (py_split sep (a +:+ String sep b)) EmptyString
  = List.last (py_split sep b) EmptyString.
Proof.
  rewrite py_split_app. pose proof (py_split_nonempty sep b) as Hb.
  destruct (py_split sep b) as [|w ws]; [done|]. apply last_default_app.
Qed.

Lemma last_py_split_free sep s :
  sep ∉ chars (List.last (py_split sep s) EmptyString).
Proof.
  apply (py_split_pieces_free sep s).
  pose proof (py_split_nonempty sep s) as Hs.
  destruct (py_split sep s) as [|w ws] using rev_ind; [done|].
  rewrite last_last. set_solver.
Qed.

Section StripRules.
Context (space2 : ascii → ascii → bool).
Context (space3 : ascii → ascii → ascii → bool).

Lemma strip_space_step l :
  strip_space space2 space3 l
  = match skip_space space2 space3 l with
    | Some rest => strip_space space2 space3 rest
    | None => l
    end.
Proof.
  destruct l as [|b1 l]; [done|]. cbn. destruct (py_isspace b1); [done|].
  destruct l as [|b2 l]; [done|]. destruct (space2 b1 b2); [done|].
  destruct l as [|b3 l]; [done|]. by destruct (space3 b1 b2 b3).
Qed.

Lemma skip_space_cut l rest :
  skip_space space2 space3 l = Some rest →
  ∃ space, l = space ++ rest ∧ length rest < length l.
Proof.
  destruct l as [|b1 l]; [done|]. cbn. destruct (py_isspace b1).
  { intros [= <-]. exists [b1]. split; [done|]. cbn. lia. }
  destruct l as [|b2 l]; [done|]. destruct (space2 b1 b2).
  { intros [= <-]. exists [b1; b2]. split; [done|]. cbn. lia. }
  destruct l as [|b3 l]; [done|]. destruct (space3 b1 b2 b3); [|done].
  intros [= <-]. exists [b1; b2; b3]. split; [done|]. cbn. lia.
Qed.

Lemma skip_space_app l rest more :
  skip_space space2 space3 l = Some rest →
  skip_space space2 space3 (l ++ more) = Some (rest ++ more).
Proof.
  destruct l as [|b1 l]; [done|]. cbn. destruct (py_isspace b1).
  { by intros [= <-]. }
  destruct l as [|b2 l]; [done|]. cbn. destruct (space2 b1 b2).
  { by intros [= <-]. }
  destruct l as [|b3 l]; [done|]. cbn. destruct (space3 b1 b2 b3); [|done].
  by intros [= <-].
Qed.

Lemma strip_space_spec l :
  skip_space space2 space3 (strip_space space2 space3 l) = None
  ∧ ∃ spaces, l = spaces ++ strip_space space2 space3 l.
Proof.
  remember (length l) as n eqn:Hn. revert l Hn.
  induction n as [n IH] using lt_wf_ind. intros l ->.
  rewrite strip_space_step.
  destruct (skip_space space2 space3 l) as [rest|] eqn:Hskip.
  - apply skip_space_cut in Hskip as (space & -> & Hlen).
    destruct (IH _ Hlen rest eq_refl) as [Hnone (spaces & Hrest)].
    split; [done|]. exists (space ++ spaces). by rewrite <- app_assoc, <- Hrest.
  - split; [done|]. by exists [].
Qed.

Lemma strip_space_fixed l :
  skip_space space2 space3 l = None → strip_space space2 space3 l = l.
Proof. intros H. by rewrite strip_space_step, H. Qed.

Lemma strip_space_idem l :
  strip_space space2 space3 (strip_space space2 space3 l)
  = strip_space space2 space3 l.
Proof. apply strip_space_fixed, strip_space_spec. Qed.

End StripRules.

(** What [py_strip] leaves: a part of the bytes it was given that neither
    starts nor ends with white space, so that stripping it again changes
    nothing. *)
Lemma strip_chars_spec l :
  let t := rstrip_chars (lstrip_chars l) in
  (∃ before after, l = before ++ t ++ after)
  ∧ leading_space t = None
  ∧ trailing_space t = None
  ∧ rstrip_chars (lstrip_chars t) = t.
Proof.
  intros t.
  destruct (strip_space_spec py_isspace2 py_isspace3 l)
    as [Hleft (before & Hl)].
  fold lstrip_chars in Hleft, Hl.
  destruct (strip_space_spec (λ b2 b1, py_isspace2 b1 b2)
              (λ b3 b2 b1, py_isspace3 b1 b2 b3) (rev (lstrip_chars l)))
    as [Hright (after & Hr)].
  assert (lstrip_chars l = t ++ rev after) as Ht.
  { subst t. unfold rstrip_chars.
    by rewrite <- rev_app_distr, <- Hr, rev_involutive. }
  assert (leading_space t = None) as Hlead.
  { destruct (leading_space t) as [rest|] eqn:Hskip; [|done].
    apply (skip_space_app _ _ _ _ (rev after)) in Hskip.
    rewrite <- Ht in Hskip. unfold leading_space in Hleft. congruence. }
  assert (trailing_space t = None) as Htrail.
  { subst t. unfold trailing_space, rstrip_chars. by rewrite rev_involutive. }
  split; [|split; [done|split; [done|]]].
  { exists before, (rev after). by rewrite <- Ht. }
  unfold lstrip_chars. rewrite strip_space_fixed by done.
  unfold rstrip_chars. rewrite strip_space_fixed by done.
  apply rev_involutive.
Qed.

Lemma py_strip_idem s : py_strip (py_strip s) = py_strip s.
Proof.
  unfold py_strip. rewrite list_ascii_of_string_of_list_ascii.
  f_equal. apply strip_chars_spec.
Qed.

Lemma chars_py_strip s : chars (py_strip s) ⊆ chars s.
Proof.
  unfold py_strip, chars. rewrite list_ascii_of_string_of_list_ascii.
  destruct (strip_chars_spec (list_ascii_of_string s))
    as [(before & after & Hs) _].
  rewrite Hs at 2. set_solver.
Qed.

(** X1. Every entry of a parsed comma-separated string is non-empty,
    neither starts nor ends with a white space character (of ASCII or of
    the rest of Unicode, as [str.strip] knows them), so that stripping it
    changes nothing, and holds no comma. *)
Theorem extract_str_list_entries_clean (str : option string) (x : string) :
  x ∈ _extract_str_list_from_comma_str str →
  x ≠ EmptyString
  ∧ leading_space (chars x) = None
  ∧ trailing_space (chars x) = None
  ∧ py_strip x = x
  ∧ ","%char ∉ chars x.
Proof.
  destruct str as [s|]; cbn; [|by intros ?%elem_of_nil].
  destruct (str_truthy s); cbn; [|by intros ?%elem_of_nil].
  intros [Htruthy (piece & -> & Hpiece)%list_elem_of_fmap]%list_elem_of_filter.
  split; [by destruct (py_strip piece)|].
  destruct (strip_chars_spec (list_ascii_of_string piece))
    as (_ & Hlead & Htrail & _).
  unfold chars, py_strip at 1 2. rewrite list_ascii_of_string_of_list_ascii.
  split; [done|]. split; [done|]. split; [apply py_strip_idem|].
  intros Hc%chars_py_strip. by apply (py_split_pieces_free _ _ _ Hpiece).
Qed.

(** The no-break space U+00A0 in front of the first entry and the em space
    U+2003 behind the second are stripped like the blanks. *)
Lemma extract_str_list_entries_clean_witness :
  _extract_str_list_from_comma_str
    (Some (String "194" (String "160" "a , b")
           +:+ String "226" (String "128" (String "131" " ,, "))))
  = ["a"; "b"]
  ∧ ("b" ≠ EmptyString
     ∧ leading_space (chars "b") = None
     ∧ trailing_space (chars "b") = None
     ∧ py_strip "b" = "b"
     ∧ ","%char ∉ chars "b").
Proof.
  split; [vm_compute; reflexivity|].
  apply (extract_str_list_entries_clean
           (Some (String "194" (String "160" "a , b")
                  +:+ String "226" (String "128" (String "131" " ,, "))))
           "b").
  vm_compute. right. left.
Defined.

Lemma py_split_concat sep (ws : list string) :
  ws ≠ [] → Forall (λ w, sep ∉ chars w) ws →
  py_split sep (String.concat (String sep EmptyString) ws) = ws.
Proof.
  intros Hne Hfree. induction Hfree as [|w ws Hw Hws IH]; [done|].
  destruct ws as [|v vs]; [by apply py_split_free|].
  change (py_split sep (w +:+ String sep (String.concat (String sep "") (v :: vs)))
          = w :: v :: vs).
  rewrite py_split_app, py_split_free, IH; done.
Qed.

(** X2. Parsing undoes joining: a list of entries that are non-empty,
    stripped and comma-free is what the parser returns for the entries
    joined by commas. *)
Theorem extract_str_list_of_joined (ws : list string) :
  Forall (λ w, w ≠ EmptyString ∧ py_strip w = w ∧ ","%char ∉ chars w) ws →
  _extract_str_list_from_comma_str (Some (String.concat "," ws)) = ws.
Proof.
  intros Hclean. destruct ws as [|w ws]; [done|].
  unfold _extract_str_list_from_comma_str.
  assert (str_truthy (String.concat "," (w :: ws)) = true) as ->.
  { apply Forall_cons in Hclean as [(Hw & _) _].
    destruct w; [done|]. by destruct ws. }
  cbn [negb]. rewrite py_split_concat; [|done|].
  2:{ eapply Forall_impl; [exact Hclean|]. by intros v (_ & _ & Hv). }
  induction Hclean as [|v vs (Hv & Hs & _) _ IH]; [done|].
  cbn [fmap list_fmap]. rewrite Hs, filter_cons_True by by destruct v.
  f_equal. apply IH.
Qed.

Lemma extract_str_list_of_joined_witness :
  _extract_str_list_from_comma_str
    (Some (String.concat "," ["admin@x.org"; "user@x.org"]))
  = ["admin@x.org"; "user@x.org"].
Proof.
  apply extract_str_list_of_joined.
  repeat constructor; try done; vm_compute;
    intros H; repeat (apply elem_of_cons in H as [H|H]; [discriminate H|]);
    by apply elem_of_nil in H.
Defined.

(** X3. The ID taken from a URL is what follows its last slash: for every
    slash-free [id], [base/id] and [id] itself both give [id] (the empty ID
    for a URL that ends in a slash); every ID extracted is slash-free and
    there is one per URL. *)
Theorem extract_ids_last_segment (urls : list string) (base id : string) :
  "/"%char ∉ chars id →
  _extract_ids_from_urls [base +:+ String "/" id] = [id]
  ∧ _extract_ids_from_urls [id] = [id]
  ∧ length (_extract_ids_from_urls urls) = length urls
  ∧ Forall (λ x, "/"%char ∉ chars x) (_extract_ids_from_urls urls).
Proof.
  intros Hid. unfold _extract_ids_from_urls. cbn [fmap list_fmap].
  rewrite last_py_split_app, py_split_free by done.
  repeat split; [apply length_fmap|].
  apply Forall_fmap, Forall_forall. intros url _. apply last_py_split_free.
Qed.

Lemma extract_ids_last_segment_witness :
  _extract_ids_from_urls ["https://drive.google.com/drive/folders/F1"] = ["F1"]
  ∧ _extract_ids_from_urls ["https://drive.google.com/drive/folders/F1/"]
    = [EmptyString].
Proof.
  split.
  - apply (extract_ids_last_segment []
             "https://drive.google.com/drive/folders" "F1").
    vm_compute. intros H.
    repeat (apply elem_of_cons in H as [H|H]; [discriminate H|]).
    by apply elem_of_nil in H.
  - apply (extract_ids_last_segment []
             "https://drive.google.com/drive/folders/F1" EmptyString).
    by intros ?%elem_of_nil.
Defined.

(** X4. [google_domain] is what follows the last ["@"] of the primary admin
    address: [local@domain] gives [domain] when [domain] holds no ["@"], an
    address without ["@"] is returned whole, and before [load_credentials]
    the property raises [RuntimeError]. *)
Theorem google_domain_of_address (self : GoogleDriveConnector)
    (loc domain : string) :
  "@"%char ∉ chars domain →
  (_primary_admin_email self = Some (loc +:+ String "@" domain) →
   google_domain self = Ok domain)
  ∧ (_primary_admin_email self = Some domain → google_domain self = Ok domain)
  ∧ (_primary_admin_email self = None →
     ∃ msg, google_domain self = Raise (RuntimeError msg)).
Proof.
  intros Hd. unfold google_domain. repeat split.
  - intros ->. by rewrite last_py_split_app, py_split_free.
  - intros ->. by rewrite py_split_free.
  - intros ->. by eexists.
Qed.

Lemma google_domain_of_address_witness :
  google_domain (configured true false false ∅ ∅ 2 ServiceAccountCredentials)
  = Ok "x.org".
Proof.
  refine (proj1 (google_domain_of_address
                   (configured true false false ∅ ∅ 2 ServiceAccountCredentials)
                   "admin" "x.org" _) eq_refl).
  vm_compute. intros H.
  repeat (apply elem_of_cons in H as [H|H]; [discriminate H|]).
  by apply elem_of_nil in H.
Defined.

(* ----------------------------------------------------------------- *)
(** ** The roster and the resolved scope *)

Lemma append_new_emails_spec (users : list (option string)) :
  ∀ acc : list string,
    NoDup acc →
    NoDup (append_new_emails users acc)
    ∧ ∃ added,
        append_new_emails users acc = acc ++ added
        ∧ (∀ x, x ∈ added → x ≠ EmptyString ∧ Some x ∈ users ∧ x ∉ acc)
        ∧ (∀ x, Some x ∈ users → x ≠ EmptyString →
             x ∈ append_new_emails users acc).
Proof.
  unfold append_new_emails.
  induction users as [|user users IH]; intros acc Hnd; cbn [foldl].
  { split; [done|]. exists []. rewrite app_nil_r.
    split; [done|]. split; [by intros x ?%elem_of_nil|].
    by intros x ?%elem_of_nil. }
  set (acc' := match user with
               | Some email =>
                   if str_truthy email && negb (bool_decide (email ∈ acc))
                   then acc ++ [email] else acc
               | None => acc
               end).
  assert (NoDup acc'
          ∧ ∃ one, acc' = acc ++ one
                   ∧ (∀ x, x ∈ one → x ≠ EmptyString ∧ user = Some x ∧ x ∉ acc)
                   ∧ (∀ x, user = Some x → x ≠ EmptyString → x ∈ acc'))
    as (Hnd' & one & Hacc' & Hone & Hin).
  { subst acc'. destruct user as [email|].
    - destruct (str_truthy email) eqn:Ht; cbn [andb].
      + case_bool_decide as He; cbn [negb].
        * split; [done|]. exists []. rewrite app_nil_r. split; [done|].
          split; [by intros x ?%elem_of_nil|]. by intros x [= ->] _.
        * split; [apply NoDup_app; split; [done|]; split;
                    [|apply NoDup_singleton];
                  by intros x Hx ->%list_elem_of_singleton|].
          exists [email]. split; [done|]. split.
          -- intros x Hx%list_elem_of_singleton. subst x.
             split; [by destruct email|done].
          -- intros x [= ->] _. set_solver.
      + split; [done|]. exists []. rewrite app_nil_r. split; [done|].
        split; [by intros x ?%elem_of_nil|].
        intros x [= ->] Hx. by destruct x.
    - split; [done|]. exists []. rewrite app_nil_r. split; [done|].
      split; [by intros x ?%elem_of_nil | done]. }
  destruct (IH acc' Hnd') as (Hnd'' & added & Hadded & Hnew & Hall).
  split; [done|]. exists (one ++ added).
  split; [by rewrite Hadded, Hacc', app_assoc|]. split.
  - intros x [Hx|Hx]%elem_of_app.
    + destruct (Hone x Hx) as (? & Hu & ?).
      repeat split; [done|rewrite Hu; by left|done].
    + destruct (Hnew x Hx) as (? & ? & Hx'). repeat split; [done|by right|].
      intros Hacc. apply Hx'. rewrite Hacc'. set_solver.
  - intros x [Hu|Hx]%elem_of_cons Hne.
    + rewrite Hadded. apply elem_of_app. left. by apply Hin.
    + by apply Hall.
Qed.

(** X5. With credentials loaded, [_get_all_user_emails] returns a roster
    without duplicates that starts with the primary admin. With delegated
    credentials it is the primary admin alone and no call is made; with a
    service account the admin is followed by addresses from the admin
    listing and then by addresses from the member listing, and every
    non-empty address of either listing is in the roster. *)
Theorem get_all_user_emails_roster (w : World) (self : GoogleDriveConnector)
    (admin : string) (c : Credentials) (s : st) :
  _primary_admin_email self = Some admin →
  _creds self = Some c →
  ∃ emails,
    out (_get_all_user_emails w self s) = Ok emails
    ∧ NoDup emails
    ∧ match c with
      | OAuthCredentials =>
          emails = [admin] ∧ final (_get_all_user_emails w self s) = s
      | ServiceAccountCredentials =>
          ∃ admins members,
            emails = admin :: admins ++ members
            ∧ (∀ x, x ∈ admins → Some x ∈ users_list w true)
            ∧ (∀ x, x ∈ members → Some x ∈ users_list w false)
            ∧ ∀ x, x ≠ EmptyString →
                Some x ∈ users_list w true ∨ Some x ∈ users_list w false →
                x ∈ emails
      end.
Proof.
  intros Ha Hc. unfold _get_all_user_emails, primary_admin_email, creds.
  rewrite Ha, Hc. destruct c; cbn.
  { exists [admin]. repeat split. apply NoDup_singleton. }
  destruct (append_new_emails_spec (users_list w true) [admin])
    as (Hnd1 & admins & Hadm & Hnew1 & Hall1); [apply NoDup_singleton|].
  destruct (append_new_emails_spec (users_list w false)
              (append_new_emails (users_list w true) [admin]) Hnd1)
    as (Hnd2 & members & Hmem & Hnew2 & Hall2).
  eexists. split; [done|]. split; [done|].
  exists admins, members. rewrite Hmem, Hadm. split; [done|].
  split; [intros x Hx; by apply Hnew1|].
  split; [intros x Hx; by apply Hnew2|].
  intros x Hne [Hx|Hx].
  - apply elem_of_app. left. rewrite <- Hadm. by apply Hall1.
  - rewrite <- Hadm, <- Hmem. by apply Hall2.
Qed.

Lemma get_all_user_emails_roster_witness :
  let self :=
    configured false false false {["D1"]} ∅ 2 ServiceAccountCredentials in
  out (_get_all_user_emails roster_store self (enter self))
  = Ok ["admin@x.org"; "user@x.org"]
  ∧ ∃ emails,
      out (_get_all_user_emails roster_store self (enter self)) = Ok emails
      ∧ NoDup emails.
Proof.
  intros self. split; [vm_compute; reflexivity|].
  destruct (get_all_user_emails_roster roster_store self "admin@x.org"
              ServiceAccountCredentials (enter self) eq_refl eq_refl)
    as (emails & Hout & Hnd & _).
  by exists emails.
Defined.

(** X6. The scope both retrieval managers resolve: every drive to retrieve
    is a visible drive, no folder to retrieve is one, and when any drive or
    folder ID was requested, nothing outside the requested IDs is in the
    scope while every requested drive ID is in it, as a drive or as a
    folder. *)
Theorem ids_to_retrieve_scope (self : GoogleDriveConnector)
    (all_drive_ids : gset string) :
  let scope := ids_to_retrieve self all_drive_ids in
  let requested :=
    _requested_shared_drive_ids self ∪ _requested_folder_ids self in
  scope.1 ⊆ all_drive_ids
  ∧ scope.2 ## all_drive_ids
  ∧ (requested ≠ ∅ →
     scope.1 ∪ scope.2 ⊆ requested
     ∧ _requested_shared_drive_ids self ⊆ scope.1 ∪ scope.2)
  ∧ (requested = ∅ → include_shared_drives self = false →
     scope = (∅, ∅)).
Proof.
  intros scope requested. subst scope requested. unfold ids_to_retrieve.
  destruct (bool_decide (_requested_shared_drive_ids self ≠ ∅)
            || bool_decide (_requested_folder_ids self ≠ ∅)) eqn:Hreq.
  - rewrite clean_drive_ids, clean_folder_ids.
    split; [set_solver|]. split; [set_solver|]. split.
    + intros _. split; [set_solver|]. intros x Hx.
      destruct (decide (x ∈ all_drive_ids)); set_solver.
    + intros Hempty. apply orb_true_iff in Hreq as [H|H];
        apply bool_decide_eq_true in H; set_solver.
  - apply orb_false_iff in Hreq as [H1 H2].
    apply bool_decide_eq_false in H1, H2.
    assert (_requested_shared_drive_ids self = ∅) as E1
      by (destruct (decide (_requested_shared_drive_ids self = ∅)); tauto).
    assert (_requested_folder_ids self = ∅) as E2
      by (destruct (decide (_requested_folder_ids self = ∅)); tauto).
    destruct (include_shared_drives self); cbn;
      repeat split; try set_solver.
Qed.

Lemma ids_to_retrieve_scope_witness :
  let self :=
    configured false false false {["D1"; "F1"]} {["F2"]} 2
      ServiceAccountCredentials in
  ids_to_retrieve self {["D1"; "D2"]} = ({["D1"]}, {["F1"; "F2"]})
  ∧ (ids_to_retrieve self {["D1"; "D2"]}).1
    ∪ (ids_to_retrieve self {["D1"; "D2"]}).2
    ⊆ _requested_shared_drive_ids self ∪ _requested_folder_ids self.
Proof.
  intros self. split; [vm_compute; reflexivity|].
  apply (ids_to_retrieve_scope self {["D1"; "D2"]}).
  vm_compute. discriminate.
Defined.

(* ----------------------------------------------------------------- *)
(** ** Nothing is lost between the items and the batches *)

Lemma process_files_loop_spec
    (convert_func : GoogleDriveFileType → result (option Document))
    (batch_size : Z) (files : list GoogleDriveFileType) :
  ∀ doc_batch : list Document,
    (Z.of_nat (length doc_batch) < Z.max 1 batch_size)%Z →
    let '(bs, r) :=
      process_files_loop convert_func batch_size files doc_batch in
    Forall (λ b, b ≠ []
                 ∧ (batch_size ≤ Z.of_nat (length b) ≤ Z.max 1 batch_size)%Z) bs
    ∧ match r with
      | Ok last =>
          concat bs ++ last
          = doc_batch ++ omap (λ f, delivered (convert_func f)) files
          ∧ (Z.of_nat (length last) < Z.max 1 batch_size)%Z
          ∧ Forall (λ f, ∃ o, convert_func f = Ok o) files
      | Raise e =>
          ∃ before file after pending,
            files = before ++ file :: after
            ∧ Forall (λ f, ∃ o, convert_func f = Ok o) before
            ∧ convert_func file = Raise e
            ∧ concat bs ++ pending
              = doc_batch ++ omap (λ f, delivered (convert_func f)) before
            ∧ (Z.of_nat (length pending) < Z.max 1 batch_size)%Z
      end.
Proof.
  induction files as [|f files IH]; intros db Hdb; cbn.
  { split; [done|]. by rewrite app_nil_r. }
  destruct (convert_func f) as [[doc|]|e] eqn:Hf.
  - assert (length (db ++ [doc]) = S (length db)) as Hlen
      by (rewrite length_app; cbn; lia).
    destruct (Z.leb_spec batch_size (Z.of_nat (length (db ++ [doc]))))
      as [Hge|Hlt].
    + specialize (IH []).
      destruct (process_files_loop convert_func batch_size files [])
        as [later r].
      destruct IH as [Hbs Hr]; [cbn; lia|].
      split; [constructor; [split; [by destruct db|lia]|done]|].
      destruct r as [last|e].
      * destruct Hr as (Hcat & Hlast & Hok). cbn.
        rewrite <- !app_assoc. cbn in Hcat. rewrite Hcat.
        repeat split; [done|]. constructor; [by eexists|done].
      * destruct Hr as (before & file & after & pending & -> & Hok & He
                        & Hcat & Hp).
        exists (f :: before), file, after, pending. cbn. rewrite Hf. cbn.
        rewrite <- !app_assoc. cbn in Hcat. rewrite Hcat.
        repeat split; [|done..]. constructor; [by eexists|done].
    + specialize (IH (db ++ [doc])).
      destruct (process_files_loop convert_func batch_size files (db ++ [doc]))
        as [bs r].
      destruct IH as [Hbs Hr]; [lia|]. split; [done|].
      destruct r as [last|e].
      * destruct Hr as (Hcat & Hlast & Hok). rewrite Hcat, <- app_assoc.
        repeat split; [done|]. constructor; [by eexists|done].
      * destruct Hr as (before & file & after & pending & -> & Hok & He
                        & Hcat & Hp).
        exists (f :: before), file, after, pending. cbn. rewrite Hf. cbn.
        rewrite Hcat, <- app_assoc.
        repeat split; [|done..]. constructor; [by eexists|done].
  - specialize (IH db).
    destruct (process_files_loop convert_func batch_size files db) as [bs r].
    destruct IH as [Hbs Hr]; [done|]. split; [done|].
    destruct r as [last|e].
    + destruct Hr as (Hcat & Hlast & Hok).
      repeat split; [done..|]. constructor; [by eexists|done].
    + destruct Hr as (before & file & after & pending & -> & Hok & He
                      & Hcat & Hp).
      exists (f :: before), file, after, pending. cbn. rewrite Hf. cbn.
      repeat split; [|done..]. constructor; [by eexists|done].
  - split; [done|]. exists [], f, files, db. cbn. by rewrite app_nil_r.
Qed.

(** X7. [_process_files_batch] on a non-empty list: every batch is
    non-empty and holds at most [batch_size] documents (a size below one
    acts as one). If no conversion raises, it ends normally and the batches,
    in order, hold exactly the documents of the successful conversions in
    the order of the files. If the conversion of a file raises, it ends
    with that exception, the batches hold a prefix of the documents
    converted before that file, and the documents of the batch being filled
    (fewer than [batch_size]) are lost. On the empty list it raises before
    any conversion. *)
Theorem process_files_batch_spec (files : list GoogleDriveFileType)
    (convert_func : GoogleDriveFileType → result (option Document))
    (batch_size : Z) :
  let '(bs, r) := _process_files_batch files convert_func batch_size in
  match files with
  | [] => bs = [] ∧ ∃ e, r = Raise e
  | _ :: _ =>
      Forall (λ b, b ≠ []
                   ∧ (Z.of_nat (length b) ≤ Z.max 1 batch_size)%Z) bs
      ∧ match r with
        | Ok _ =>
            Forall (λ f, ∃ o, convert_func f = Ok o) files
            ∧ concat bs = omap (λ f, delivered (convert_func f)) files
        | Raise e =>
            ∃ before file after pending,
              files = before ++ file :: after
              ∧ Forall (λ f, ∃ o, convert_func f = Ok o) before
              ∧ convert_func file = Raise e
              ∧ concat bs ++ pending
                = omap (λ f, delivered (convert_func f)) before
              ∧ (Z.of_nat (length pending) < Z.max 1 batch_size)%Z
        end
  end.
Proof.
  unfold _process_files_batch. destruct files as [|f files]; cbn [nonempty].
  { split; [done|]. by eexists. }
  pose proof (process_files_loop_spec convert_func batch_size (f :: files) [])
    as Hloop.
  destruct (process_files_loop convert_func batch_size (f :: files) [])
    as [bs r].
  destruct Hloop as [Hbs Hr]; [cbn; lia|].
  assert (Forall (λ b : list Document,
                    b ≠ [] ∧ (Z.of_nat (length b) ≤ Z.max 1 batch_size)%Z) bs)
    as Hbs'.
  { eapply Forall_impl; [exact Hbs|]. intros b [Hb ?]. split; [done|lia]. }
  destruct r as [last|e].
  - destruct Hr as (Hcat & Hlast & Hok). split.
    + apply Forall_app. split; [done|].
      destruct last; cbn; [constructor|]. repeat constructor; [done|lia].
    + split; [done|]. cbn [app] in Hcat. rewrite concat_app, <- Hcat.
      f_equal. destruct last; cbn; [done|]. by rewrite app_nil_r.
  - split; [done|]. exact Hr.
Qed.

Section Completeness.
Context (sch : Scheduler) (w : World) (k : Constants).
Context (self : GoogleDriveConnector).

Lemma slim_loop_concat callback items :
  ∀ slim_batch checks cur,
    let '(bs, r, _) := slim_loop w k callback items slim_batch checks cur in
    let all := slim_batch ++ omap (build_slim_document w) items.*1 in
    match r with
    | Ok last => concat bs ++ last = all
    | Raise _ => concat bs `prefix_of` all
    end.
Proof.
  induction items as [|[f s] items IH]; intros sb n cur; cbn.
  { by rewrite !app_nil_r. }
  set (sb' := match build_slim_document w f with
              | Some doc => sb ++ [doc] | None => sb end).
  assert (sb ++ match build_slim_document w f with
                | Some y => y :: omap (build_slim_document w) items.*1
                | None => omap (build_slim_document w) items.*1
                end
          = sb' ++ omap (build_slim_document w) items.*1) as ->.
  { subst sb'. destruct (build_slim_document w f); [|done].
    by rewrite <- app_assoc. }
  destruct (_ <=? _)%Z; [|apply IH].
  destruct (match callback with Some cb => _ | None => _ end).
  { cbn. rewrite app_nil_r. by apply prefix_app_r. }
  match goal with |- context [slim_loop w k callback items [] ?c s] =>
    specialize (IH [] c s) end.
  destruct (slim_loop _ _ _ _ _ _ _) as [[later r] s'].
  cbn in IH |- *. destruct r as [last|e].
  - by rewrite <- app_assoc, IH.
  - by apply prefix_app.
Qed.

(** X8. The lightweight crawl neither invents, drops nor reorders: the
    batches, in order, hold a prefix of the slim documents of the items the
    item generator yields, and all of them when the run ends normally. *)
Theorem slim_batches_complete win callback :
  let c := _extract_slim_docs_from_google_drive sch w k self win callback in
  let items :=
    (yielded (_fetch_drive_items sch w self true win (enter self))).*1 in
  concat (batches c) `prefix_of` omap (build_slim_document w) items
  ∧ (ending c = Ok tt →
     concat (batches c) = omap (build_slim_document w) items).
Proof.
  intros c items. subst c items. unfold _extract_slim_docs_from_google_drive.
  pose proof (slim_loop_concat callback
    (yielded (_fetch_drive_items sch w self true win (enter self)))
    [] 0 (enter self)) as Hloop.
  destruct (slim_loop _ _ _ _ _ _ _) as [[bs [last|e]] s]; cbn in Hloop.
  - destruct (out _); cbn.
    + rewrite concat_app. cbn. rewrite app_nil_r, Hloop. by split.
    + split; [|done]. rewrite <- Hloop. by apply prefix_app_r.
  - by split.
Qed.

Lemma omap_Permutation_local {A B} (f : A → option B) (l1 l2 : list A) :
  l1 ≡ₚ l2 → omap f l1 ≡ₚ omap f l2.
Proof.
  induction 1 as [|x l1 l2 _ IH|x y l|l1 l2 l3 _ IH1 _ IH2]; cbn.
  - done.
  - destruct (f x); by rewrite IH.
  - destruct (f x), (f y); try done. apply perm_swap.
  - by etrans.
Qed.

Lemma convert_files_batch_perm admin files_batch :
  convert_files_batch sch w admin files_batch
  ≡ₚ omap (converted w admin) files_batch.
Proof.
  unfold convert_files_batch.
  rewrite (omap_Permutation_local _ _ _ (as_completed_perm sch _ _)).
  induction files_batch as [|f l IH]; [done|].
  cbn [fmap list_fmap omap list_omap]. unfold converted at 1.
  destruct (_convert_single_file w admin f) as [[d|]|]; by rewrite ?IH.
Qed.

Lemma concat_yield_if_any documents :
  concat (yield_if_any documents) = documents.
Proof. destruct documents; cbn; [done|]. by rewrite app_nil_r. Qed.

Lemma docs_loop_complete admin items :
  ∀ files_batch,
    (Z.of_nat (length files_batch) < Z.max 1 (batch_size self))%Z →
    let '(bs, last) := docs_loop sch w self admin items files_batch in
    ∃ chunks outs,
      files_batch ++ items = concat chunks ++ last
      ∧ Forall (λ chunk, Z.of_nat (length chunk)
                         = Z.max 1 (batch_size self)) chunks
      ∧ Forall2 (λ out chunk, out ≡ₚ omap (converted w admin) chunk)
          outs chunks
      ∧ bs = concat (yield_if_any <$> outs)
      ∧ (Z.of_nat (length last) < Z.max 1 (batch_size self))%Z.
Proof.
  induction items as [|f items IH]; intros fb Hfb; cbn.
  { exists [], []. cbn. by rewrite app_nil_r. }
  assert (length (fb ++ [f]) = S (length fb)) as Hlen
    by (rewrite length_app; cbn; lia).
  destruct (Z.leb_spec (batch_size self) (Z.of_nat (length (fb ++ [f]))))
    as [Hge|Hlt].
  - specialize (IH []).
    destruct (docs_loop sch w self admin items []) as [later last].
    destruct IH as (chunks & outs & Hitems & Hfull & Hperm & -> & Hlast);
      [cbn; lia|].
    exists ((fb ++ [f]) :: chunks),
      (convert_files_batch sch w admin (fb ++ [f]) :: outs).
    cbn in Hitems. cbn [concat fmap list_fmap].
    split; [by rewrite <- !app_assoc, <- Hitems|].
    split; [constructor; [lia|done]|].
    split; [constructor; [apply convert_files_batch_perm|done]|done].
  - specialize (IH (fb ++ [f])).
    destruct (docs_loop sch w self admin items (fb ++ [f])) as [bs last].
    destruct IH as (chunks & outs & Hitems & Hrest); [lia|].
    exists chunks, outs. by rewrite <- app_assoc in Hitems.
Qed.

(** X9. With credentials loaded, the full-document crawl cuts the items of
    the item generator, in order, into groups of [batch_size] (of one, for
    a size below one). Each group gives one batch, which holds the
    successful conversions of exactly the items of that group, in some
    order; a group without a successful conversion gives no batch. The
    items left over at the end, fewer than [batch_size], give a last batch
    in the same way when the generator ends normally, and are never
    converted when it raises. *)
Theorem docs_batches_complete win admin c :
  _creds self = Some c →
  _primary_admin_email self = Some admin →
  let r := _extract_docs_from_google_drive sch w self win in
  let items :=
    (yielded (_fetch_drive_items sch w self false win (enter self))).*1 in
  ∃ chunks rest outs out_rest,
    items = concat chunks ++ rest
    ∧ Forall (λ chunk, Z.of_nat (length chunk)
                       = Z.max 1 (batch_size self)) chunks
    ∧ (Z.of_nat (length rest) < Z.max 1 (batch_size self))%Z
    ∧ Forall2 (λ out chunk, out ≡ₚ omap (converted w admin) chunk)
        outs chunks
    ∧ out_rest ≡ₚ omap (converted w admin) rest
    ∧ batches r
      = concat (yield_if_any <$> outs)
        ++ match ending r with
           | Ok _ => yield_if_any out_rest
           | Raise _ => []
           end.
Proof.
  intros Hc Ha r items. subst r items.
  unfold _extract_docs_from_google_drive, creds, primary_admin_email.
  rewrite Hc, Ha.
  pose proof (docs_loop_complete admin
    (yielded (_fetch_drive_items sch w self false win (enter self))).*1 [])
    as Hloop.
  destruct (docs_loop _ _ _ _ _ _) as [bs fb].
  destruct Hloop as (chunks & outs & Hitems & Hfull & Hperm & -> & Hlast);
    [cbn; lia|].
  cbn in Hitems.
  exists chunks, fb, outs, (convert_files_batch sch w admin fb).
  split; [done|]. split; [done|]. split; [done|]. split; [done|].
  split; [apply convert_files_batch_perm|].
  destruct (out _); cbn; [|by rewrite app_nil_r].
  f_equal. destruct fb as [|f fb]; [|done]. cbn [nonempty].
  pose proof (convert_files_batch_perm admin []) as Hnil.
  apply Permutation_nil_r in Hnil. by rewrite Hnil.
Qed.

End Completeness.

Lemma slim_batches_complete_witness :
  let self := configured true true true ∅ ∅ 2 OAuthCredentials in
  let world :=
    store (λ _, None) [] [] [file "f1"; file "f2"; file "f3"]
      (λ _, []) (λ _, ([], [])) ["f2"] in
  concat (batches (_extract_slim_docs_from_google_drive fifo world
                     (constants 2) self whole_window None))
  = [{| slim_id := "f1" |}; {| slim_id := "f3" |}].
Proof.
  intros self world.
  rewrite (proj2 (slim_batches_complete fifo world (constants 2) self
                    whole_window None) eq_refl).
  vm_compute. reflexivity.
Defined.

Lemma docs_batches_complete_witness :
  let self := configured true true true ∅ ∅ 2 OAuthCredentials in
  let world :=
    store (λ _, None) [] [] [file "f1"; file "f2"; file "f3"]
      (λ _, []) (λ _, ([], [])) ["f2"] in
  let r := _extract_docs_from_google_drive fifo world self whole_window in
  batches r = [[{| document_id := "f1" |}]; [{| document_id := "f3" |}]]
  ∧ ∃ chunks rest outs out_rest,
      [file "f1"; file "f2"; file "f3"] = concat chunks ++ rest
      ∧ Forall (λ chunk, Z.of_nat (length chunk)
                         = Z.max 1 (batch_size self)) chunks
      ∧ (Z.of_nat (length rest) < Z.max 1 (batch_size self))%Z
      ∧ Forall2 (λ out chunk,
                   out ≡ₚ omap (converted world "admin@x.org") chunk)
          outs chunks
      ∧ out_rest ≡ₚ omap (converted world "admin@x.org") rest
      ∧ batches r
        = concat (yield_if_any <$> outs)
          ++ match ending r with
             | Ok _ => yield_if_any out_rest
             | Raise _ => []
             end.
Proof.
  intros self world r. split; [vm_compute; reflexivity|].
  apply (docs_batches_complete fifo world self whole_window "admin@x.org"
           OAuthCredentials eq_refl eq_refl).
Defined.

(* ----------------------------------------------------------------- *)
(** ** The conversion identity *)

(** X10. For every converter: an item whose first owner has a non-empty
    ["emailAddress"] is converted as that address and as no other; an item
    without owners entry, or whose first owner has no address or an empty
    one, is converted as the primary admin; so no item is converted under
    an empty address when the primary admin is not empty. An item whose
    list of owners is empty is not handed to the converter at all: its
    conversion raises [IndexError] and leaves nothing in the batch. *)
Theorem convert_single_file_identity (w : World)
    (primary_admin_email : string) (file : GoogleDriveFileType) :
  primary_admin_email ≠ EmptyString →
  (∀ email others,
     owners file = Some (Some email :: others) → email ≠ EmptyString →
     _convert_single_file w primary_admin_email file
     = convert_drive_item_to_document w email file)
  ∧ (owners file = None
     ∨ (∃ others, owners file = Some (None :: others))
     ∨ (∃ others, owners file = Some (Some EmptyString :: others)) →
     _convert_single_file w primary_admin_email file
     = convert_drive_item_to_document w primary_admin_email file)
  ∧ (owners file = Some [] →
     _convert_single_file w primary_admin_email file = Raise IndexError
     ∧ converted w primary_admin_email file = None)
  ∧ (owners file ≠ Some [] →
     ∃ user_email,
       user_email ≠ EmptyString
       ∧ _convert_single_file w primary_admin_email file
         = convert_drive_item_to_document w user_email file).
Proof.
  intros Hadmin. unfold converted, _convert_single_file.
  split; [|split; [|split]].
  - intros email others -> Hne. by destruct email.
  - by intros [->|[(others & ->)|(others & ->)]].
  - by intros ->.
  - intros Hne. destruct (owners file) as [[|[[|ch email]|] others]|];
      [done|by exists primary_admin_email|by exists (String ch email)
      |by exists primary_admin_email..].
Qed.

(** The item f1 belongs to owner@x.org: it is converted with the services
    of that address, in a store whose converter tells the addresses
    apart. *)
Lemma convert_single_file_identity_witness :
  let world :=
    {| get_root_folder_id := λ _, None;
       users_list := λ _, [];
       drives_list := λ _ _, [];
       my_drive_files := λ _ _ _, [];
       my_drive_containers := λ _, [];
       shared_drive_files := λ _ _ _ _, [];
       folder_listing := λ _ _ _, ([], []);
       files_for_oauth := λ _ _ _ _ _ _, [];
       convert_drive_item_to_document := λ user_email f,
         Ok (Some {| document_id := user_email +:+ ":" +:+ file_id f |});
       build_slim_document := λ _, None |} in
  _convert_single_file world "admin@x.org" (file "f1")
  = Ok (Some {| document_id := "owner@x.org:f1" |}).
Proof.
  intros world.
  rewrite (proj1 (convert_single_file_identity world "admin@x.org"
                    (file "f1") ltac:(discriminate))
             "owner@x.org" [] eq_refl ltac:(discriminate)).
  reflexivity.
Defined.

(* ----------------------------------------------------------------- *)
(** ** Before the credentials are loaded *)

(** X11. On a connector whose credentials or primary admin address are not
    loaded, as [__init__] leaves it, every crawl operation ends with an
    exception, delivers no batch, makes no outside call and leaves the
    connector as it was. *)
Theorem operations_need_credentials (sch : Scheduler) (w : World)
    (k : Constants) (self : GoogleDriveConnector) :
  _creds self = None ∨ _primary_admin_email self = None →
  (∀ op, invoke sch w k op self = ([], self))
  ∧ (batches (load_from_state sch w k self) = []
     ∧ ∃ e, ending (load_from_state sch w k self) = Raise e)
  ∧ (∀ start end_,
       batches (poll_source sch w k self start end_) = []
       ∧ ∃ e, ending (poll_source sch w k self start end_) = Raise e)
  ∧ (∀ win callback,
       batches (retrieve_all_slim_documents sch w k self win callback) = []
       ∧ ∃ e, ending (retrieve_all_slim_documents sch w k self win callback)
              = Raise e).
Proof.
  intros Hmissing.
  assert (∀ is_slim win,
            ∃ e, _fetch_drive_items sch w self is_slim win (enter self)
                 = {| yielded := []; final := enter self; out := Raise e |})
    as Hfetch.
  { intros is_slim win.
    unfold _fetch_drive_items, _manage_service_account_retrieval,
      _manage_oauth_retrieval, _get_all_user_emails, creds,
      primary_admin_email.
    destruct (_creds self) as [[]|]; [..|by eexists];
      (destruct Hmissing as [?| ->]; [done|by eexists]). }
  assert (∀ win,
            ∃ e, _extract_docs_from_google_drive sch w self win
                 = leave self [] (Raise e) (enter self)) as Hdocs.
  { intros win. unfold _extract_docs_from_google_drive, creds,
      primary_admin_email.
    destruct (_creds self); [|by eexists].
    destruct Hmissing as [?| ->]; [done|by eexists]. }
  assert (∀ win callback,
            ∃ e, _extract_slim_docs_from_google_drive sch w k self win callback
                 = leave self [] (Raise e) (enter self)) as Hslim.
  { intros win callback. unfold _extract_slim_docs_from_google_drive.
    destruct (Hfetch true win) as (e & ->). cbn. by eexists. }
  assert (∀ {B} e, ∃ e',
            reraise k (leave (B:=B) self [] (Raise e) (enter self))
            = leave self [] (Raise e') (enter self)) as Hre.
  { intros B e. unfold reraise. cbn. destruct (str_contains _ _); by eexists. }
  assert (leave_enter : ∀ {B} e,
            (calls (leave (B:=B) self [] (Raise e) (enter self)),
             self_after (leave (B:=B) self [] (Raise e) (enter self)))
            = ([], self)).
  { intros B e. cbn. by rewrite with_retrieved_ids_id. }
  split; [|split; [|split]].
  - intros [|start end_|win callback]; cbn.
    + unfold load_from_state. destruct (Hdocs {| start := None; end_ := None |})
        as (e & ->). destruct (Hre Document e) as (e' & ->). apply leave_enter.
    + unfold poll_source.
      destruct (Hdocs {| start := Some start; end_ := Some end_ |})
        as (e & ->). destruct (Hre Document e) as (e' & ->). apply leave_enter.
    + unfold retrieve_all_slim_documents.
      destruct (Hslim win callback) as (e & ->).
      destruct (Hre SlimDocument e) as (e' & ->). apply leave_enter.
  - unfold load_from_state. destruct (Hdocs {| start := None; end_ := None |})
      as (e & ->). destruct (Hre Document e) as (e' & ->). split; [done|].
    by eexists.
  - intros start end_. unfold poll_source.
    destruct (Hdocs {| start := Some start; end_ := Some end_ |})
      as (e & ->). destruct (Hre Document e) as (e' & ->). split; [done|].
    by eexists.
  - intros win callback. unfold retrieve_all_slim_documents.
    destruct (Hslim win callback) as (e & ->).
    destruct (Hre SlimDocument e) as (e' & ->). split; [done|]. by eexists.
Qed.

Lemma operations_need_credentials_witness :
  ∃ self,
    __init__ true false false None None None 10 = Ok self
    ∧ invoke fifo roster_store (constants 500) LoadFromState self = ([], self).
Proof.
  eexists. split; [reflexivity|].
  apply operations_need_credentials. left. reflexivity.
Defined.

(* ----------------------------------------------------------------- *)
(** ** Substrings *)

Lemma prefix_spec (needle haystack : string) :
  String.prefix needle haystack = true ↔ ∃ b, haystack = needle +:+ b.
Proof.
  revert haystack. induction needle as [|c needle IH]; intros haystack.
  { destruct haystack; cbn; (split; [intros _; by eexists|done]). }
  destruct haystack as [|d haystack]; cbn.
  { split; [done|]. by intros (b & ?). }
  destruct (ascii_dec c d) as [->|Hne].
  - rewrite IH. split; intros (b & Hb); exists b; [by rewrite Hb|].
    by injection Hb.
  - split; [done|]. intros (b & Hb). by injection Hb.
Qed.

Lemma str_contains_spec (needle haystack : string) :
  str_contains needle haystack = true
  ↔ ∃ a b, haystack = a +:+ needle +:+ b.
Proof.
  induction haystack as [|c haystack IH].
  - cbn [str_contains]. rewrite orb_false_r, prefix_spec.
    split; [intros (b & Hb); by exists EmptyString, b|].
    intros ([|? a] & b & Hb); [by exists b|discriminate Hb].
  - cbn [str_contains]. rewrite orb_true_iff, prefix_spec, IH. split.
    + intros [(b & Hb)|(a & b & Hb)].
      * by exists EmptyString, b.
      * exists (String c a), b. cbn. by rewrite Hb.
    + intros ([|d a] & b & Hb).
      * left. by exists b.
      * right. exists a, b. by injection Hb.
Qed.

(* ----------------------------------------------------------------- *)
(** ** Validation of the settings *)

Lemma status_code_cases {T} (status_code : option Z) (a b c : T) :
  (status_code = Some 401%Z
   ∧ match status_code with
     | Some 401%Z => a | Some 403%Z => b | _ => c
     end = a)
  ∨ (status_code = Some 403%Z
     ∧ match status_code with
       | Some 401%Z => a | Some 403%Z => b | _ => c
       end = b)
  ∨ (status_code ≠ Some 401%Z ∧ status_code ≠ Some 403%Z
     ∧ match status_code with
       | Some 401%Z => a | Some 403%Z => b | _ => c
       end = c).
Proof.
  destruct status_code as [[|p|p]|]; try (right; right; by repeat split).
  do 9 (try (destruct p as [p|p|];
             try (right; right; by repeat split))).
  - right; left. by split.
  - left. by split.
Qed.

(** X13. Validation stops at the first thing that goes wrong.  It returns
    normally exactly when the credentials and the primary admin address are
    loaded and no call it makes fails, where the root-folder lookup is made
    only with service-account credentials and only after the listing
    succeeded: a failed listing hides the lookup, and with OAuth
    credentials the lookup has no influence at all.  Missing credentials
    are reported before anything else, whatever the calls would do. *)
Theorem validate_connector_settings_first_failure (k : Constants)
    (self : GoogleDriveConnector)
    (files_list root_folder : option Validation.failure) :
  (Validation.validate_connector_settings k self files_list root_folder = None
   ↔ ∃ c, _creds self = Some c ∧ _primary_admin_email self ≠ None
          ∧ files_list = None
          ∧ (c = ServiceAccountCredentials → root_folder = None))
  ∧ (∀ root_folder',
       files_list ≠ None ∨ _creds self ≠ Some ServiceAccountCredentials →
       Validation.validate_connector_settings k self files_list root_folder
       = Validation.validate_connector_settings k self files_list
           root_folder')
  ∧ (Validation.validate_connector_settings k self files_list root_folder
     = Some Validation.ConnectorMissingCredentialError
     ↔ _creds self = None).
Proof.
  unfold Validation.validate_connector_settings.
  assert (∀ e, match e with
               | Validation.HttpError status_code _ =>
                   match status_code with
                   | Some 401%Z => Some Validation.CredentialExpiredError
                   | Some 403%Z => Some Validation.InsufficientPermissionsError
                   | _ => Some Validation.ConnectorValidationError
                   end
               | Validation.OtherException msg =>
                   if str_contains (MISSING_SCOPES_ERROR_STR k) msg
                   then Some Validation.InsufficientPermissionsError
                   else Some Validation.ConnectorValidationError
               end ∉ [None; Some Validation.ConnectorMissingCredentialError])
    as Hverdict.
  { intros [status_code msg|msg]; [|destruct (str_contains _ _); set_solver].
    destruct (status_code_cases status_code
                (Some Validation.CredentialExpiredError)
                (Some Validation.InsufficientPermissionsError)
                (Some Validation.ConnectorValidationError))
      as [[_ ->]|[[_ ->]|(_ & _ & ->)]]; set_solver. }
  destruct (_creds self) as [c|]; cycle 1.
  { split; [|done]. split; [done|]. by intros (? & ? & _). }
  destruct (_primary_admin_email self) as [admin|]; cycle 1.
  { split; [|done]. split; [done|]. by intros (? & _ & ? & _). }
  destruct files_list as [e|].
  { specialize (Hverdict e). split; [|split; [done|]].
    - split; [set_solver|]. by intros (? & _ & _ & ? & _).
    - split; [set_solver|done]. }
  destruct c; cbn.
  - split; [|split; [by intros ? [|]|done]].
    split; [intros _; by eexists|done].
  - destruct root_folder as [e|].
    + specialize (Hverdict e). split; [|split; [by intros ? [|]|]].
      * split; [set_solver|]. intros (? & [= <-] & _ & _ & Hroot).
        by specialize (Hroot eq_refl).
      * split; [set_solver|done].
    + split; [|split; [by intros ? [|]|done]].
      split; [intros _; by eexists|done].
Qed.

Lemma validate_connector_settings_first_failure_witness :
  Validation.validate_connector_settings (constants 500)
    (configured true true true ∅ ∅ 10 OAuthCredentials)
    None (Some (Validation.HttpError (Some 401%Z) "expired"))
  = Validation.validate_connector_settings (constants 500)
      (configured true true true ∅ ∅ 10 OAuthCredentials) None None.
Proof.
  apply (validate_connector_settings_first_failure (constants 500)
           (configured true true true ∅ ∅ 10 OAuthCredentials) None
           (Some (Validation.HttpError (Some 401%Z) "expired"))).
  right. discriminate.
Defined.

(** X14. How validation names the failure that stopped it, on a connector
    whose credentials and primary admin address are loaded: an [HttpError]
    is judged by its status alone, 401 giving [CredentialExpiredError], 403
    [InsufficientPermissionsError] and anything else, a missing response
    included, [ConnectorValidationError], even when its text mentions the
    missing scopes; any other exception gives
    [InsufficientPermissionsError] exactly when its message contains
    [MISSING_SCOPES_ERROR_STR] and [ConnectorValidationError] otherwise. *)
Theorem validate_connector_settings_verdict (k : Constants)
    (self : GoogleDriveConnector)
    (files_list root_folder : option Validation.failure)
    (c : Credentials) (admin : string) (e : Validation.failure) :
  _creds self = Some c →
  _primary_admin_email self = Some admin →
  files_list = Some e
  ∨ (files_list = None ∧ c = ServiceAccountCredentials
     ∧ root_folder = Some e) →
  let verdict :=
    Validation.validate_connector_settings k self files_list root_folder in
  (verdict = Some Validation.CredentialExpiredError
   ↔ ∃ msg, e = Validation.HttpError (Some 401%Z) msg)
  ∧ (verdict = Some Validation.InsufficientPermissionsError
     ↔ (∃ msg, e = Validation.HttpError (Some 403%Z) msg)
       ∨ ∃ a b, e = Validation.OtherException
                      (a +:+ MISSING_SCOPES_ERROR_STR k +:+ b))
  ∧ (verdict = Some Validation.ConnectorValidationError
     ↔ (∃ status_code msg,
          e = Validation.HttpError status_code msg
          ∧ status_code ≠ Some 401%Z ∧ status_code ≠ Some 403%Z)
       ∨ ∃ msg, e = Validation.OtherException msg
                ∧ ¬ ∃ a b, msg = a +:+ MISSING_SCOPES_ERROR_STR k +:+ b).
Proof.
  intros Hc Hadmin Hdeciding verdict.
  assert (verdict
          = match e with
            | Validation.HttpError status_code _ =>
                match status_code with
                | Some 401%Z => Some Validation.CredentialExpiredError
                | Some 403%Z => Some Validation.InsufficientPermissionsError
                | _ => Some Validation.ConnectorValidationError
                end
            | Validation.OtherException msg =>
                if str_contains (MISSING_SCOPES_ERROR_STR k) msg
                then Some Validation.InsufficientPermissionsError
                else Some Validation.ConnectorValidationError
            end) as ->.
  { subst verdict. unfold Validation.validate_connector_settings.
    rewrite Hc, Hadmin.
    by destruct Hdeciding as [->|(-> & -> & ->)]. }
  destruct e as [status_code msg|msg].
  - destruct (status_code_cases status_code
                (Some Validation.CredentialExpiredError)
                (Some Validation.InsufficientPermissionsError)
                (Some Validation.ConnectorValidationError))
      as [[-> _]|[[-> _]|(H401 & H403 & ->)]]; cbv match.
    + split; [|split].
      * split; [by eexists|done].
      * split; [done|]. by intros [(? & [=])|(? & ? & [=])].
      * split; [done|]. intros [(? & ? & [= <- _] & ? & _)|(? & [=] & _)].
        done.
    + split; [|split].
      * split; [done|]. by intros (? & [=]).
      * split; [left; by eexists|done].
      * split; [done|]. intros [(? & ? & [= <- _] & _ & ?)|(? & [=] & _)].
        done.
    + split; [|split].
      * split; [done|]. intros (? & [= -> _]). done.
      * split; [done|]. intros [(? & [= -> _])|(? & ? & [=])]. done.
      * split; [|done]. intros _. left. by eexists _, _.
  - destruct (str_contains (MISSING_SCOPES_ERROR_STR k) msg) eqn:Hs.
    + apply str_contains_spec in Hs as (a & b & ->). split; [|split].
      * split; [done|]. by intros (? & [=]).
      * split; [|done]. intros _. right. by eexists _, _.
      * split; [done|]. intros [(? & ? & [=] & _)|(? & [= <-] & Hno)].
        destruct Hno. by eexists _, _.
    + assert (¬ ∃ a b, msg = a +:+ MISSING_SCOPES_ERROR_STR k +:+ b) as Hno.
      { intros H%str_contains_spec. congruence. }
      split; [|split].
      * split; [done|]. by intros (? & [=]).
      * split; [done|]. intros [(? & [=])|(a & b & [= ->])].
        destruct Hno. by eexists _, _.
      * split; [|done]. intros _. right. by eexists.
Qed.

Lemma validate_connector_settings_verdict_witness :
  Validation.validate_connector_settings (constants 500)
    (configured true true true ∅ ∅ 10
       ServiceAccountCredentials) None
    (Some (Validation.HttpError (Some 401%Z) "expired"))
  = Some Validation.CredentialExpiredError.
Proof.
  apply (validate_connector_settings_verdict (constants 500)
           (configured true true true ∅ ∅ 10
       ServiceAccountCredentials) None
           (Some (Validation.HttpError (Some 401%Z) "expired"))
           ServiceAccountCredentials "admin@x.org"
           (Validation.HttpError (Some 401%Z) "expired")).
  - reflexivity.
  - reflexivity.
  - right. by repeat split.
  - by eexists.
Defined.

(* ----------------------------------------------------------------- *)
(** ** The calls stay within the resolved scope *)

Section CallRules.
Context (P : event → Prop).

#[global] Instance only_preorder : PreOrder (only P).
Proof.
  split.
  - intros s. exists []. by rewrite app_nil_r.
  - intros a b c (evs1 & H1 & HP1) (evs2 & H2 & HP2). exists (evs1 ++ evs2).
    split; [by rewrite H2, H1, (assoc_L (++))|by apply Forall_app].
Qed.

Lemma only_ret {A} (a : A) : calls_only P (ret a).
Proof. intros s. split; cbn; [reflexivity|done]. Qed.

Lemma only_raise {A} e : calls_only P (raise (A:=A) e).
Proof. intros s. split; cbn; [reflexivity|done]. Qed.

Lemma only_lift {A} (r : result A) : calls_only P (lift r).
Proof. destruct r; [apply only_ret|apply only_raise]. Qed.

Lemma only_retrieved_ids : calls_only P retrieved_ids.
Proof. intros s. split; cbn; [reflexivity|done]. Qed.

Lemma only_yield_from l : calls_only P (yield_from l).
Proof.
  intros s. split; cbn; [reflexivity|]. apply Forall_fmap, Forall_forall.
  intros f _. cbn. reflexivity.
Qed.

Lemma only_emit e : P e → calls_only P (emit e).
Proof.
  intros He s. split; cbn; [|done]. exists [e]. split; [done|].
  by constructor.
Qed.

Lemma only_update id : calls_only P (_update_traversed_parent_ids id).
Proof. intros s. split; cbn; [|done]. exists []. by rewrite app_nil_r. Qed.

Lemma only_bind {A B} (m : Gen A) (k : A → Gen B) :
  calls_only P m →
  (∀ a s, out (m s) = Ok a → sat_at (only P) (only P) (k a) (final (m s))) →
  calls_only P (bind m k).
Proof.
  intros Hm Hk s.
  apply (sat_at_seq (only P) (only P) (only P) (only P)); try done;
    [by intros a b c; etrans..|intros a; apply Hk].
Qed.

Lemma only_then {A B} (m : Gen A) (k : A → Gen B) :
  calls_only P m → (∀ a, calls_only P (k a)) → calls_only P (bind m k).
Proof. intros Hm Hk. apply only_bind; [done|]. intros a s _. apply Hk. Qed.

Lemma only_for_each {A} (l : list A) (body : A → Gen unit) :
  (∀ x, x ∈ l → calls_only P (body x)) → calls_only P (for_each l body).
Proof.
  induction l as [|x l IH]; intros Hbody; [apply only_ret|].
  rewrite for_each_cons. apply only_then; [apply Hbody; by left|].
  intros _. apply IH. intros y Hy. apply Hbody. by right.
Qed.

Lemma only_crawl_tree user t :
  (∀ id visited, P (EvFolder user id visited)) →
  calls_only P (crawl_tree user t).
Proof.
  intros HP. induction t as [id files subfolders IH] using folder_ind_all.
  rewrite crawl_tree_unfold. apply only_then; [apply only_retrieved_ids|].
  intros seen. apply only_then; [apply only_update|]. intros _.
  apply only_then; [by apply only_emit|]. intros _.
  apply only_then; [apply only_yield_from|]. intros _.
  apply only_for_each. intros x Hx. unfold crawl_child.
  apply only_then; [apply only_retrieved_ids|]. intros seen'.
  destruct (bool_decide _); [apply only_ret|].
  rewrite Forall_forall in IH. by apply IH.
Qed.

Lemma only_crawl_folders_for_files w user parent_id win :
  P (EvCrawl user parent_id) →
  (∀ id visited, P (EvFolder user id visited)) →
  calls_only P (crawl_folders_for_files w user parent_id win).
Proof.
  intros Hcrawl Hfolder. unfold crawl_folders_for_files.
  apply only_then; [by apply only_emit|]. intros _.
  destruct (folder_listing w user parent_id win) as [files subfolders].
  by apply only_crawl_tree.
Qed.

Lemma only_get_files_in_shared_drive w user drive_id is_slim win :
  (∀ visited, P (EvSharedDrive user drive_id visited)) →
  calls_only P (get_files_in_shared_drive w user drive_id is_slim win).
Proof.
  intros HP. unfold get_files_in_shared_drive.
  apply only_then; [apply only_retrieved_ids|]. intros seen.
  apply only_then; [by apply only_emit|]. intros _.
  apply only_then; [apply only_yield_from|]. intros _. apply only_update.
Qed.

Lemma only_get_all_files_in_my_drive w user is_slim win :
  P (EvMyDrive user) →
  calls_only P (get_all_files_in_my_drive w user is_slim win).
Proof.
  intros HP. unfold get_all_files_in_my_drive.
  apply only_then; [by apply only_emit|]. intros _.
  apply only_then; [|intros _; apply only_yield_from].
  apply only_for_each. intros id _. apply only_update.
Qed.

(** What [calls_only] says of an operation: every state the item generator
    passes through has a log of permitted calls only. *)
Lemma only_invoke sch w k op self :
  (∀ is_slim win, calls_only P (_fetch_drive_items sch w self is_slim win)) →
  Forall P (invoke sch w k op self).1.
Proof.
  intros Hfetch.
  destruct (invoke_state sch w k op self)
    as (p & is_slim & win & -> & Hp). cbn.
  destruct (Hfetch is_slim win (enter self)) as [Hfin Hy].
  rewrite Forall_forall in Hy.
  assert (only P (enter self) p) as (evs & -> & Hevs); [|done].
  destruct Hp as [->|[->|(q & -> & Hq)%list_elem_of_fmap]];
    [reflexivity|done|by apply Hy].
Qed.

End CallRules.

Section ScopeSafety.
Context (sch : Scheduler) (w : World) (k : Constants).
Context (self : GoogleDriveConnector) (admin : string).
Context (Hadmin : _primary_admin_email self = Some admin).

Lemma out_get_all_drive_ids c s all_drive_ids :
  _creds self = Some c →
  out (get_all_drive_ids w self s) = Ok all_drive_ids →
  all_drive_ids = list_to_set (drives_list w admin (is_service_account c)).
Proof.
  intros Hc. unfold get_all_drive_ids, creds, primary_admin_email.
  rewrite Hc, Hadmin. cbn. by intros [= <-].
Qed.

Lemma only_get_all_drive_ids P :
  P EvDrivesList → calls_only P (get_all_drive_ids w self).
Proof.
  intros HP. unfold get_all_drive_ids.
  apply only_then; [apply only_lift|]. intros c.
  apply only_then; [apply only_lift|]. intros a.
  apply only_then; [by apply only_emit|]. intros _. apply only_ret.
Qed.

Lemma service_account_retrieval_in_scope is_slim win :
  _creds self = Some ServiceAccountCredentials →
  let roster :=
    append_new_emails (users_list w false)
      (append_new_emails (users_list w true) [admin]) in
  let scope :=
    ids_to_retrieve self (list_to_set (drives_list w admin true)) in
  calls_only (service_account_call w self roster scope.1 scope.2)
    (_fetch_drive_items sch w self is_slim win).
Proof.
  intros Hc roster scope. unfold _fetch_drive_items.
  apply only_bind; [apply only_lift|]. intros c s.
  unfold creds at 1. rewrite Hc. intros [= <-].
  unfold _manage_service_account_retrieval.
  apply only_bind.
  { unfold _get_all_user_emails.
    apply only_then; [apply only_lift|]. intros a.
    apply only_then; [apply only_lift|]. intros [|]; [apply only_ret|].
    apply only_then; [by apply only_emit|]. intros _.
    apply only_then; [by apply only_emit|]. intros _. apply only_ret. }
  intros all_org_emails s1 Hroster.
  assert (all_org_emails = roster) as ->.
  { revert Hroster. unfold _get_all_user_emails, creds, primary_admin_email.
    rewrite Hc, Hadmin. cbn. by intros [= <-]. }
  apply only_bind; [by apply only_get_all_drive_ids|].
  intros all_drive_ids s2 ->%(out_get_all_drive_ids ServiceAccountCredentials);
    [|done].
  cbn [is_service_account]. subst scope.
  destruct (ids_to_retrieve self _) as [drives folders]. cbn [fst snd].
  apply only_for_each. intros user Huser.
  rewrite (as_completed_perm sch) in Huser.
  unfold _impersonate_user_for_retrieval.
  apply only_then; [apply only_lift|]. intros _.
  apply only_then; [by apply only_emit|]. intros _.
  destruct (get_root_folder_id w user) as [e|] eqn:Hprobe.
  { destruct e; try apply only_raise.
    destruct (_ =? _)%Z; [apply only_ret|apply only_raise]. }
  apply only_then.
  { destruct (_ || _) eqn:Hmy; [|apply only_ret].
    apply only_get_all_files_in_my_drive. cbn. repeat split; [done..|].
    apply orb_true_iff in Hmy as [?|?%bool_decide_eq_true];
      [by left|by right]. }
  intros _. apply only_then; [apply only_retrieved_ids|]. intros seen.
  apply only_then.
  { apply only_for_each. intros drive_id Hd%set_iter_elem.
    apply only_get_files_in_shared_drive. intros visited. cbn.
    repeat split; [done..|set_solver]. }
  intros _. apply only_then; [apply only_retrieved_ids|]. intros seen'.
  apply only_for_each. intros folder_id Hf%set_iter_elem.
  apply only_crawl_folders_for_files; [|done].
  cbn. repeat split; [done..|set_solver].
Qed.

Lemma oauth_retrieval_in_scope is_slim win :
  _creds self = Some OAuthCredentials →
  let scope :=
    ids_to_retrieve self (list_to_set (drives_list w admin false)) in
  calls_only (delegated_call self admin scope.1 scope.2)
    (_fetch_drive_items sch w self is_slim win).
Proof.
  intros Hc scope. unfold _fetch_drive_items.
  apply only_bind; [apply only_lift|]. intros c s.
  unfold creds at 1. rewrite Hc. intros [= <-].
  unfold _manage_oauth_retrieval.
  apply only_then; [apply only_lift|]. intros _.
  apply only_bind; [apply only_lift|]. intros a s1.
  unfold primary_admin_email at 1. rewrite Hadmin. intros [= <-].
  apply only_then.
  { destruct (_ || _) eqn:Hflags; [|apply only_ret].
    unfold get_all_files_for_oauth.
    apply only_then; [by apply only_emit|]. intros _. apply only_yield_from. }
  intros _. destruct (_ && _); [apply only_ret|].
  apply only_bind; [by apply only_get_all_drive_ids|].
  intros all_drive_ids s2 ->%(out_get_all_drive_ids OAuthCredentials);
    [|done].
  cbn [is_service_account]. subst scope.
  destruct (ids_to_retrieve self _) as [drives folders]. cbn [fst snd].
  apply only_then.
  { apply only_for_each. intros drive_id Hd%set_iter_elem.
    by apply only_get_files_in_shared_drive. }
  intros _. apply only_then; [apply only_retrieved_ids|]. intros seen.
  apply only_for_each. intros folder_id Hf%set_iter_elem.
  apply only_crawl_folders_for_files; [|done].
  cbn. split; [done|set_solver].
Qed.

(** X15. With service-account credentials every call an operation makes is
    within what the connector resolved: a principal is probed or
    impersonated only if the roster holds it, anything is listed as a
    principal only if its probe returned, a personal drive only when
    personal drives are included or the principal was requested by name, a
    shared drive only if the resolved scope holds it, a crawl starts only
    from a folder of the resolved scope, and the combined listing of the
    delegated path is never used. *)
Theorem service_account_calls_in_scope (op : operation) :
  _creds self = Some ServiceAccountCredentials →
  let roster :=
    append_new_emails (users_list w false)
      (append_new_emails (users_list w true) [admin]) in
  let scope :=
    ids_to_retrieve self (list_to_set (drives_list w admin true)) in
  Forall (service_account_call w self roster scope.1 scope.2)
    (invoke sch w k op self).1.
Proof.
  intros Hc roster scope. apply only_invoke. intros is_slim win.
  by apply service_account_retrieval_in_scope.
Qed.

(** X16. With delegated (OAuth) credentials an operation acts as the
    primary admin alone: it never probes, lists the roster or enumerates a
    personal drive on its own; the combined listing is called with the
    three flags of the connector and only when files shared with the user
    or personal drives are included; a shared drive is listed only if the
    resolved scope holds it and a crawl starts only from a folder of the
    resolved scope. *)
Theorem oauth_calls_in_scope (op : operation) :
  _creds self = Some OAuthCredentials →
  let scope :=
    ids_to_retrieve self (list_to_set (drives_list w admin false)) in
  Forall (delegated_call self admin scope.1 scope.2)
    (invoke sch w k op self).1.
Proof.
  intros Hc scope. apply only_invoke. intros is_slim win.
  by apply oauth_retrieval_in_scope.
Qed.

End ScopeSafety.

Lemma service_account_calls_in_scope_witness :
  Forall
    (service_account_call roster_store
       (configured true true true ∅ ∅ 10 ServiceAccountCredentials)
       (append_new_emails (users_list roster_store false)
          (append_new_emails (users_list roster_store true) ["admin@x.org"]))
       (ids_to_retrieve
          (configured true true true ∅ ∅ 10 ServiceAccountCredentials)
          (list_to_set (drives_list roster_store "admin@x.org" true))).1
       (ids_to_retrieve
          (configured true true true ∅ ∅ 10 ServiceAccountCredentials)
          (list_to_set (drives_list roster_store "admin@x.org" true))).2)
    (invoke fifo roster_store (constants 500) LoadFromState
       (configured true true true ∅ ∅ 10 ServiceAccountCredentials)).1.
Proof.
  exact (service_account_calls_in_scope fifo roster_store (constants 500)
           (configured true true true ∅ ∅ 10 ServiceAccountCredentials)
           "admin@x.org" eq_refl LoadFromState eq_refl).
Defined.

Lemma oauth_calls_in_scope_witness :
  Forall
    (delegated_call (configured true true false ∅ ∅ 10 OAuthCredentials)
       "admin@x.org"
       (ids_to_retrieve (configured true true false ∅ ∅ 10 OAuthCredentials)
          (list_to_set (drives_list roster_store "admin@x.org" false))).1
       (ids_to_retrieve (configured true true false ∅ ∅ 10 OAuthCredentials)
          (list_to_set (drives_list roster_store "admin@x.org" false))).2)
    (invoke fifo roster_store (constants 500) LoadFromState
       (configured true true false ∅ ∅ 10 OAuthCredentials)).1.
Proof.
  exact (oauth_calls_in_scope fifo roster_store (constants 500)
           (configured true true false ∅ ∅ 10 OAuthCredentials)
           "admin@x.org" eq_refl LoadFromState eq_refl).
Defined.

(* ----------------------------------------------------------------- *)
(** ** A connector with nothing selected *)

Section Silence.

Lemma silent_ret {A} (a : A) : silent (ret a).
Proof. intros s. cbn. repeat split. reflexivity. Qed.

Lemma silent_raise {A} e : silent (raise (A:=A) e).
Proof. intros s. cbn. repeat split. reflexivity. Qed.

Lemma silent_lift {A} (r : result A) : silent (lift r).
Proof. destruct r; [apply silent_ret|apply silent_raise]. Qed.

Lemma silent_retrieved_ids : silent retrieved_ids.
Proof. intros s. cbn. repeat split. reflexivity. Qed.

Lemma silent_emit e : bookkeeping e → silent (emit e).
Proof.
  intros He s. cbn. repeat split. exists [e]. split; [done|by constructor].
Qed.

Lemma silent_bind {A B} (m : Gen A) (k : A → Gen B) :
  silent m → (∀ a, silent (k a)) → silent (bind m k).
Proof.
  intros Hm Hk s. destruct (Hm s) as (Hy & Hl & Ho). unfold bind.
  destruct (out (m s)) as [a|e]; cbn; [|done].
  destruct (Hk a (final (m s))) as (Hy' & Hl' & Ho').
  rewrite Hy, Hy', Hl', Hl. repeat split. by etrans.
Qed.

Lemma silent_for_each {A} (l : list A) (body : A → Gen unit) :
  (∀ x, x ∈ l → silent (body x)) → silent (for_each l body).
Proof.
  induction l as [|x l IH]; intros Hbody; [apply silent_ret|].
  rewrite for_each_cons. apply silent_bind; [apply Hbody; by left|].
  intros _. apply IH. intros y Hy. apply Hbody. by right.
Qed.

Context (sch : Scheduler) (w : World) (k : Constants).
Context (self : GoogleDriveConnector).
Context (Hshared_with_me : include_files_shared_with_me self = false).
Context (Hmy_drives : include_my_drives self = false).
Context (Hshared_drives : include_shared_drives self = false).
Context (Hdrive_ids : _requested_shared_drive_ids self = ∅).
Context (Hemails : _requested_my_drive_emails self = ∅).
Context (Hfolder_ids : _requested_folder_ids self = ∅).

Lemma set_iter_empty : set_iter sch ∅ = [].
Proof. apply Permutation_nil_r. by rewrite set_iter_perm, elements_empty. Qed.

Lemma ids_to_retrieve_nothing all_drive_ids :
  ids_to_retrieve self all_drive_ids = (∅, ∅).
Proof.
  unfold ids_to_retrieve.
  rewrite Hdrive_ids, Hfolder_ids, Hshared_drives.
  by rewrite !bool_decide_eq_false_2 by (by intros []).
Qed.

Lemma silent_get_all_drive_ids : silent (get_all_drive_ids w self).
Proof.
  unfold get_all_drive_ids.
  apply silent_bind; [apply silent_lift|]. intros c.
  apply silent_bind; [apply silent_lift|]. intros a.
  apply silent_bind; [by apply silent_emit|]. intros _. apply silent_ret.
Qed.

Lemma silent_fetch_drive_items is_slim win :
  silent (_fetch_drive_items sch w self is_slim win).
Proof.
  unfold _fetch_drive_items.
  apply silent_bind; [apply silent_lift|]. intros [|].
  - unfold _manage_oauth_retrieval.
    apply silent_bind; [apply silent_lift|]. intros _.
    apply silent_bind; [apply silent_lift|]. intros admin.
    rewrite Hshared_with_me, Hmy_drives, Hshared_drives. cbn [orb andb].
    apply silent_bind; [apply silent_ret|]. intros _.
    apply silent_bind; [apply silent_get_all_drive_ids|]. intros all.
    rewrite ids_to_retrieve_nothing. cbv beta match. rewrite set_iter_empty.
    apply silent_bind; [apply (silent_ret tt)|]. intros _.
    apply silent_bind; [apply silent_retrieved_ids|]. intros seen.
    replace (∅ ∖ seen) with (∅ : gset string) by set_solver.
    rewrite set_iter_empty. apply (silent_ret tt).
  - unfold _manage_service_account_retrieval.
    apply silent_bind.
    { unfold _get_all_user_emails.
      apply silent_bind; [apply silent_lift|]. intros a.
      apply silent_bind; [apply silent_lift|]. intros [|]; [apply silent_ret|].
      apply silent_bind; [by apply silent_emit|]. intros _.
      apply silent_bind; [by apply silent_emit|]. intros _. apply silent_ret. }
    intros roster.
    apply silent_bind; [apply silent_get_all_drive_ids|]. intros all.
    rewrite ids_to_retrieve_nothing. cbv beta match.
    apply silent_for_each. intros user _.
    unfold _impersonate_user_for_retrieval.
    apply silent_bind; [apply silent_lift|]. intros _.
    apply silent_bind; [by apply silent_emit|]. intros _.
    destruct (get_root_folder_id w user) as [e|].
    { destruct e; try apply silent_raise.
      destruct (_ =? _)%Z; [apply silent_ret|apply silent_raise]. }
    rewrite Hmy_drives, Hemails.
    rewrite bool_decide_eq_false_2 by set_solver. cbn [orb].
    apply silent_bind; [apply silent_ret|]. intros _.
    apply silent_bind; [apply silent_retrieved_ids|]. intros seen.
    replace (∅ ∖ seen) with (∅ : gset string) by set_solver.
    rewrite set_iter_empty.
    apply silent_bind; [apply (silent_ret tt)|]. intros _.
    apply silent_bind; [apply silent_retrieved_ids|]. intros seen'.
    replace (∅ ∖ seen') with (∅ : gset string) by set_solver.
    rewrite set_iter_empty. apply (silent_ret tt).
Qed.

Lemma docs_nothing win :
  batches (_extract_docs_from_google_drive sch w self win) = [].
Proof.
  unfold _extract_docs_from_google_drive.
  destruct (creds self); [|done]. destruct (primary_admin_email self); [|done].
  destruct (silent_fetch_drive_items false win (enter self)) as (-> & _).
  cbn. by destruct (out _).
Qed.

Lemma slim_nothing win callback :
  Forall (λ b, b = [])
    (batches (_extract_slim_docs_from_google_drive sch w k self win callback)).
Proof.
  unfold _extract_slim_docs_from_google_drive.
  destruct (silent_fetch_drive_items true win (enter self)) as (-> & _).
  cbn. destruct (out _); cbn; by repeat constructor.
Qed.

End Silence.

(** X17. A connector on which nothing is selected, all three flags false
    and no drive, address or folder requested, retrieves nothing: whatever
    the credentials and the store, an operation makes bookkeeping calls
    only (probes, the roster, the drive catalog), leaves the connector as
    it found it, and delivers no document; the slim operation delivers at
    most empty batches. The constructor builds such a connector from a
    request that holds separators only, which passes its
    nothing-to-index test. *)
Theorem nothing_selected_nothing_retrieved (sch : Scheduler) (w : World)
    (k : Constants) (self : GoogleDriveConnector) :
  include_files_shared_with_me self = false →
  include_my_drives self = false →
  include_shared_drives self = false →
  _requested_shared_drive_ids self = ∅ →
  _requested_my_drive_emails self = ∅ →
  _requested_folder_ids self = ∅ →
  (∀ op, Forall bookkeeping (invoke sch w k op self).1
         ∧ (invoke sch w k op self).2 = self)
  ∧ batches (load_from_state sch w k self) = []
  ∧ (∀ start end_, batches (poll_source sch w k self start end_) = [])
  ∧ (∀ win callback,
       Forall (λ b, b = [])
         (batches (retrieve_all_slim_documents sch w k self win callback))).
Proof.
  intros H1 H2 H3 H4 H5 H6. split; [|split; [|split]].
  - intros op.
    destruct (invoke_state sch w k op self)
      as (p & is_slim & win & -> & Hp). cbn.
    destruct (silent_fetch_drive_items sch w self H1 H2 H3 H4 H5 H6
                is_slim win (enter self)) as (Hy & Hl & evs & Hlog & Hevs).
    rewrite Hy in Hp.
    destruct Hp as [->|[->|Hp]]; [| |by apply elem_of_nil in Hp].
    + split; [by constructor|apply with_retrieved_ids_id].
    + rewrite Hlog, Hl. split; [done|apply with_retrieved_ids_id].
  - unfold load_from_state. rewrite batches_reraise. by apply docs_nothing.
  - intros start end_. unfold poll_source. rewrite batches_reraise.
    by apply docs_nothing.
  - intros win callback. unfold retrieve_all_slim_documents.
    rewrite batches_reraise. by apply slim_nothing.
Qed.

Lemma nothing_selected_nothing_retrieved_witness :
  ∃ built,
    __init__ true true true (Some ", ,") None None 10 = Ok built
    ∧ batches (load_from_state fifo roster_store (constants 500)
                 (load_credentials built "admin@x.org"
                    ServiceAccountCredentials)) = [].
Proof.
  eexists. split; [reflexivity|].
  refine (proj1 (proj2 (nothing_selected_nothing_retrieved fifo roster_store
                          (constants 500) _ _ _ _ _ _ _))).
  - reflexivity.
  - reflexivity.
  - reflexivity.
  - vm_compute. reflexivity.
  - vm_compute. reflexivity.
  - vm_compute. reflexivity.
Defined.
